(** * battery_control.py: the state machine of [BatteryController]

    A shallow embedding of [src/battery_control.py].  The persisted state is
    a JSON object, read into a Python [dict] that [_poll] mutates in place;
    it is modelled as a [gmap string value].  Everything outside the process
    (Wi-Fi name, wall clock, battery sensor, ping, smart plug, the lock file
    as other invocations see it) is an oracle of the environment, read in
    program order. *)

From Stdlib Require Import ZArith NArith QArith Ascii String List Lia.
From stdpp Require Import base option gmap strings.

Local Open Scope Z_scope.
Local Open Scope string_scope.
Local Open Scope list_scope.

(** ** Values and the state dictionary *)

(** The values of the state file.  [_write_state] is the only writer of the
    file and the program only ever stores JSON booleans and the strings
    [datetime.isoformat()] returns, so these are the two kinds of values.
    [VTime t] is the ISO 8601 string of the naive datetime [t], counted in
    microseconds; [datetime.fromisoformat] maps it back to [t]. *)
Inductive value :=
  | VBool (b : bool)
  | VTime (t : Z).

Global Instance value_eq_dec : EqDecision value.
Proof. solve_decision. Defined.

Abbreviation dict := (gmap string value).

(** Python truthiness, as used by [if status['defaultState']:] and
    [if desired_state:]; a non-empty string is true. *)
Definition truthy (v : value) : bool :=
  match v with
  | VBool b => b
  | VTime _ => true
  end.

(** Python [a != b] on these values. *)
Definition py_ne (a b : value) : bool := negb (bool_decide (a = b)).

(** ** Class constants *)

Definition _DISCHARGE_THRESHOLD : Q := 50.
Definition _CHARGE_THRESHOLD : Q := 75.
Definition _SLEEP_CHARGE_THRESHOLD : Q := 30.
(** [timedelta(days=1)] and [timedelta(minutes=2)], in microseconds. *)
Definition _MANUAL_OVERRIDE_INTERVAL : Z := 86400 * 1000000.
Definition _SLEEP_INTERVAL : Z := 120 * 1000000.
Definition _HOME_SSID : string := "HomeSSID".

(** ** Exceptions, events, worlds *)

Inductive exn :=
  | KeyError (k : string)      (* status[k] or status.pop(k) on a missing key *)
  | TypeError                  (* datetime.fromisoformat of a non-string *)
  | RuntimeError               (* _ping_plug: 'Unable to reach the smart plug' *)
  | PlugError                  (* the SmartPlug coroutine raised *)
  | Timeout.                   (* filelock.Timeout *)

(** What a run can come to: a value, an exception, or still waiting for the
    lock when the fuel of the model is used up. *)
Inductive result (A : Type) :=
  | Ok (a : A)
  | Raise (x : exn)
  | Hang.
Arguments Ok {A} a.
Arguments Raise {A} x.
Arguments Hang {A}.

(** The external things the program reads. *)
Inductive source :=
  | SSsid | SClock | SBattery | SPing | SPlug | SLockFile | SPerf.

Global Instance source_eq_dec : EqDecision source.
Proof. solve_decision. Defined.

(** What the program does to the outside, in program order. *)
Inductive event :=
  | EvSsid                     (* _ssid() *)
  | EvNow                      (* datetime.now() *)
  | EvBattery                  (* psutil.sensors_battery().percent *)
  | EvPing                     (* one ping subprocess of _ping_plug *)
  | EvTurnOn                   (* asyncio.run(SmartPlug(..).turn_on()) *)
  | EvTurnOff                  (* asyncio.run(SmartPlug(..).turn_off()) *)
  | EvUpdate                   (* asyncio.run(plug.update()) *)
  | EvTryLock                  (* one attempt to create the lock file *)
  | EvSleep                    (* time.sleep(poll_interval) while waiting *)
  | EvUnlock                   (* the lock file is removed *)
  | EvWrite (d : dict).        (* _write_state(d) *)

Global Instance event_eq_dec : EqDecision event.
Proof. solve_decision. Defined.

(** The environment: the [n]-th reading of each source. *)
Record env := Env {
  ssid_at : nat -> option string;   (* what _ssid() returns *)
  clock_at : nat -> Z;              (* datetime.now() *)
  battery_at : nat -> Q;            (* sensors_battery().percent *)
  ping_at : nat -> bool;            (* process.returncode == 0 *)
  plug_at : nat -> option bool;     (* None: the coroutine raises;
                                       Some b: it returns, the plug is on iff b *)
  lock_taken_at : nat -> bool;      (* another invocation holds the lock file *)
  perf_at : nat -> Q                (* time.perf_counter() *)
}.

(** The state of one invocation and of the files it shares. *)
Record world := World {
  status : dict;                    (* the dict object named status *)
  disk : option dict;               (* _STATE_FILENAME; None: no such file *)
  holding : bool;                   (* this invocation holds the lock file *)
  trace : list event;               (* events so far, oldest first *)
  reads : source -> nat             (* how often each source was read *)
}.

Definition bump (s : source) (r : source -> nat) : source -> nat :=
  fun s' => if bool_decide (s = s') then S (r s') else r s'.

Definition emit (evs : list event) (w : world) : world :=
  World (status w) (disk w) (holding w) (trace w ++ evs) (reads w).

Definition set_status (d : dict) (w : world) : world :=
  World d (disk w) (holding w) (trace w) (reads w).

Definition set_disk (d : dict) (w : world) : world :=
  World (status w) (Some d) (holding w) (trace w) (reads w).

Definition set_holding (b : bool) (w : world) : world :=
  World (status w) (disk w) b (trace w) (reads w).

Definition consume (s : source) (w : world) : world :=
  World (status w) (disk w) (holding w) (trace w) (bump s (reads w)).

(** ** The monad of the program: environment, state, exceptions *)

Definition M (A : Type) : Type := env -> world -> result A * world.

Global Instance M_ret : MRet M := fun A a _ w => (Ok a, w).

Global Instance M_bind : MBind M := fun A B f m e w =>
  match m e w with
  | (Ok a, w') => f a e w'
  | (Raise x, w') => (Raise x, w')
  | (Hang, w') => (Hang, w')
  end.

Definition raise {A} (x : exn) : M A := fun _ w => (Raise x, w).
Definition hang {A} : M A := fun _ w => (Hang, w).

(** Read source [s] through [f], leaving the events [evs]. *)
Definition ask {X} (s : source) (f : env -> nat -> X) (evs : list event) : M X :=
  fun e w => (Ok (f e (reads w s)), emit evs (consume s w)).

Definition tell (evs : list event) : M unit :=
  fun _ w => (Ok tt, emit evs w).

(** *** Operations on the dict [status] *)

(** [status = d]: the name now refers to the object [d]. *)
Definition bind_status (d : dict) : M unit :=
  fun _ w => (Ok tt, set_status d w).

Definition the_status : M dict := fun _ w => (Ok (status w), w).

(** [k in status] *)
Definition contains (k : string) : M bool :=
  fun _ w => (Ok (match status w !! k with Some _ => true | None => false end), w).

(** [status[k]] *)
Definition getitem (k : string) : M value :=
  fun _ w => match status w !! k with
             | Some v => (Ok v, w)
             | None => (Raise (KeyError k), w)
             end.

(** [status[k] = v] *)
Definition setitem (k : string) (v : value) : M unit :=
  fun _ w => (Ok tt, set_status (<[k:=v]> (status w)) w).

(** [status.pop(k)] *)
Definition pop (k : string) : M unit :=
  fun _ w => match status w !! k with
             | Some _ => (Ok tt, set_status (delete k (status w)) w)
             | None => (Raise (KeyError k), w)
             end.

(** [status.pop(k, None)] *)
Definition pop_default (k : string) : M unit :=
  fun _ w => (Ok tt, set_status (delete k (status w)) w).

(** [datetime.fromisoformat(v)] *)
Definition fromisoformat (v : value) : M Z :=
  match v with
  | VTime t => mret t
  | VBool _ => raise TypeError
  end.

(** [t.isoformat()] *)
Definition isoformat (t : Z) : value := VTime t.

Definition datetime_now : M Z := ask SClock clock_at [EvNow].

Definition sensors_battery_percent : M Q := ask SBattery battery_at [EvBattery].

(** ** The static methods of [BatteryController] *)

Definition _default_state : dict :=
  <["currentState" := VBool true]> (<["defaultState" := VBool true]> ∅).

Definition _read_state : M dict :=
  fun _ w => (Ok (match disk w with
                  | None => _default_state
                  | Some d => d
                  end), w).

Definition _write_state (state : dict) : M unit :=
  fun _ w => (Ok tt, emit [EvWrite state] (set_disk state w)).

Definition _ssid : M (option string) := ask SSsid ssid_at [EvSsid].

(** [for i in range(n): run ping; if returncode == 0: return] and then
    [raise RuntimeError]. *)
Fixpoint ping_attempts (n : nat) : M unit :=
  match n with
  | O => raise RuntimeError
  | S n' =>
      ok ← ask SPing ping_at [EvPing];
      if ok : bool then mret tt else ping_attempts n'
  end.

Definition _ping_plug : M unit := ping_attempts 3.

(** [asyncio.run(SmartPlug(_PLUG_IP_ADDRESS).<command>())] *)
Definition smart_plug (ev : event) : M bool :=
  r ← ask SPlug plug_at [ev];
  match r with
  | Some b => mret b
  | None => raise PlugError
  end.

Definition _turn_off : M unit :=
  _ping_plug;; smart_plug EvTurnOff;; mret tt.

Definition _turn_on : M unit :=
  _ping_plug;; smart_plug EvTurnOn;; mret tt.

(** [_poll(status)], in the five steps of its body. *)

(** Lines 225-230: an expired manual override is discarded. *)
Definition _poll_override_expiry (now : Z) : M unit :=
  has ← contains "manualOverrideState";
  if has : bool then
    v ← getitem "manualOverrideStateExpiresAt";
    expires_at ← fromisoformat v;
    if now >=? expires_at then
      pop "manualOverrideState";;
      pop "manualOverrideStateExpiresAt"
    else mret tt
  else mret tt.

(** Lines 231-234: an expired [keepStateUntil] is discarded. *)
Definition _poll_keep_expiry (now : Z) : M unit :=
  has ← contains "keepStateUntil";
  if has : bool then
    v ← getitem "keepStateUntil";
    keep_state_until ← fromisoformat v;
    if now >=? keep_state_until then pop "keepStateUntil" else mret tt
  else mret tt.

(** Lines 236-242: the two thresholds, unless [keepStateUntil] is set. *)
Definition _poll_thresholds : M unit :=
  has ← contains "keepStateUntil";
  if negb has then
    battery ← sensors_battery_percent;
    d ← getitem "defaultState";
    if truthy d then
      if Qle_bool _CHARGE_THRESHOLD battery then
        setitem "defaultState" (VBool false)
      else mret tt
    else if Qle_bool battery _DISCHARGE_THRESHOLD then
      setitem "defaultState" (VBool true)
    else mret tt
  else mret tt.

(** Lines 244-247: [desired_state]. *)
Definition _poll_desired_state : M value :=
  has ← contains "manualOverrideState";
  if has : bool then getitem "manualOverrideState"
  else getitem "defaultState".

(** Lines 249-254: switch the plug when it is not in the desired state. *)
Definition _poll_switch (desired_state : value) : M unit :=
  current ← getitem "currentState";
  if py_ne desired_state current then
    (if truthy desired_state then _turn_on else _turn_off);;
    setitem "currentState" desired_state
  else mret tt.

Definition _poll (st : dict) : M unit :=
  bind_status st;;
  id ← _ssid;
  if negb (bool_decide (id = Some _HOME_SSID)) then
    d ← the_status; _write_state d
  else
    now ← datetime_now;
    _poll_override_expiry now;;
    _poll_keep_expiry now;;
    _poll_thresholds;;
    desired_state ← _poll_desired_state;
    _poll_switch desired_state;;
    d ← the_status; _write_state d.

(** ** The lock: [filelock.SoftFileLock]

    The package is a dependency, not part of the repository; this is the
    part of its behaviour the program relies on.  The constructor is
    [SoftFileLock(lock_file, timeout=-1)].  [acquire()] tries to create the
    lock file; while that fails it raises [Timeout] once
    [0 <= timeout < time.perf_counter() - start_time], and otherwise
    sleeps for the poll interval and tries again.  A negative timeout
    therefore never raises. *)

Record SoftFileLock := { lock_timeout : Q }.

Definition SoftFileLock_new (timeout : option Q) : SoftFileLock :=
  {| lock_timeout := default (-1)%Q timeout |}.

Fixpoint acquire_loop (timeout start_time : Q) (fuel : nat) : M unit :=
  match fuel with
  | O => hang
  | S fuel' =>
      taken ← ask SLockFile lock_taken_at [EvTryLock];
      if taken : bool then
        t ← ask SPerf perf_at [];
        if Qle_bool 0 timeout && negb (Qle_bool (t - start_time) timeout)
        then raise Timeout
        else tell [EvSleep];; acquire_loop timeout start_time fuel'
      else fun _ w => (Ok tt, set_holding true w)
  end.

Definition acquire (lk : SoftFileLock) (fuel : nat) : M unit :=
  start_time ← ask SPerf perf_at [];
  acquire_loop (lock_timeout lk) start_time fuel.

Definition release : M unit :=
  fun _ w => (Ok tt, emit [EvUnlock] (set_holding false w)).

(** [with lk: body]: the lock is released however [body] ends. *)
Definition with_lock {A} (lk : SoftFileLock) (fuel : nat) (body : M A) : M A :=
  fun e w =>
    match acquire lk fuel e w with
    | (Ok _, w1) =>
        match body e w1 with
        | (Hang, w2) => (Hang, w2)
        | (r, w2) => (r, snd (release e w2))
        end
    | (Raise x, w1) => (Raise x, w1)
    | (Hang, w1) => (Hang, w1)
    end.

Definition _lock : SoftFileLock := SoftFileLock_new (Some 30%Q).

Definition _optimistic_lock : SoftFileLock := SoftFileLock_new None.

(** ** The operations *)

Definition poll (fuel : nat) : M unit :=
  with_lock _optimistic_lock fuel
    (st ← _read_state;
     _poll st).

Definition enable_manual_override (fuel : nat) : M unit :=
  with_lock _lock fuel
    (st ← _read_state;
     bind_status st;;
     now ← datetime_now;
     let expires_at := now + _MANUAL_OVERRIDE_INTERVAL in
     setitem "manualOverrideState" (VBool true);;
     setitem "manualOverrideStateExpiresAt" (isoformat expires_at);;
     d ← the_status; _poll d).

Definition disable_manual_override (fuel : nat) : M unit :=
  with_lock _lock fuel
    (st ← _read_state;
     bind_status st;;
     pop_default "manualOverrideState";;
     pop_default "manualOverrideStateExpiresAt";;
     d ← the_status; _poll d).

Definition prepare_for_sleep (fuel : nat) : M unit :=
  battery ← sensors_battery_percent;
  with_lock _lock fuel
    (st ← _read_state;
     bind_status st;;
     now ← datetime_now;
     let keep_state_until := now + _SLEEP_INTERVAL in
     setitem "defaultState" (VBool (Qle_bool battery _SLEEP_CHARGE_THRESHOLD));;
     setitem "keepStateUntil" (isoformat keep_state_until);;
     d ← the_status; _poll d).

Definition scan (fuel : nat) : M unit :=
  _ping_plug;;
  is_on ← smart_plug EvUpdate;
  with_lock _lock fuel
    (st ← _read_state;
     bind_status st;;
     setitem "currentState" (VBool is_on);;
     d ← the_status; _poll d).

(** ** Inputs for the examples *)

(** A quiet environment: one network name, one time, one battery level,
    a plug that answers, a free lock. *)
Definition env0 (ssid : option string) (now : Z) (battery : Q) : env :=
  Env (fun _ => ssid) (fun _ => now) (fun _ => battery)
      (fun _ => true) (fun _ => Some true) (fun _ => false) (fun _ => 0%Q).

(** Away from home, with the lock file held by another invocation for the
    first three attempts. *)
Definition env_locked : env :=
  Env (fun _ => None) (fun _ => 0) (fun _ => 80%Q)
      (fun _ => true) (fun _ => Some true) (fun n => Nat.ltb n 3) (fun _ => 0%Q).

Definition world0 (d : option dict) : world :=
  World ∅ d false [] (fun _ => O).

(** [world0 None] after the battery was read once and the lock was taken at
    the first attempt. *)
Definition world_locked : world :=
  World ∅ None true [EvBattery; EvTryLock]
    (bump SLockFile (bump SPerf (bump SBattery (fun _ => O)))).

(** An override to true that expires at 500, over a discharging default. *)
Definition state_overridden : dict :=
  <["manualOverrideStateExpiresAt" := VTime 500]>
    (<["manualOverrideState" := VBool true]>
       (<["defaultState" := VBool false]> _default_state)).

(** A record pinned until 2000. *)
Definition state_pinned : dict :=
  <["keepStateUntil" := VTime 2000]> _default_state.

(** * Verification *)

(** ** What the next readings are *)

Definition next_ssid (e : env) (w : world) : option string :=
  ssid_at e (reads w SSsid).
Definition next_now (e : env) (w : world) : Z :=
  clock_at e (reads w SClock).
Definition next_battery (e : env) (w : world) : Q :=
  battery_at e (reads w SBattery).

(** The host is on the home network when [_poll] asks. *)
Definition at_home (e : env) (w : world) : Prop :=
  next_ssid e w = Some _HOME_SSID.

(** [_ping_plug] reaches the plug within its three attempts. *)
Definition plug_reachable (e : env) (w : world) : bool :=
  let n := reads w SPing in
  ping_at e n || ping_at e (S n) || ping_at e (S (S n)).

(** [_turn_on()] or [_turn_off()] would return: the plug is reachable and
    the SmartPlug coroutine does not raise. *)
Definition driver_ok (e : env) (w : world) : bool :=
  plug_reachable e w &&
  match plug_at e (reads w SPlug) with Some _ => true | None => false end.

(** ** State records *)

(** The record of the comment at the head of the class: two booleans that
    are always there, an optional time, and an override that comes with its
    expiry time. *)
Definition well_formed (s : dict) : Prop :=
  (∃ c, s !! "currentState" = Some (VBool c)) ∧
  (∃ d, s !! "defaultState" = Some (VBool d)) ∧
  (s !! "keepStateUntil" = None ∨ ∃ k, s !! "keepStateUntil" = Some (VTime k)) ∧
  ((s !! "manualOverrideState" = None ∧
    s !! "manualOverrideStateExpiresAt" = None) ∨
   ∃ m x, s !! "manualOverrideState" = Some (VBool m) ∧
          s !! "manualOverrideStateExpiresAt" = Some (VTime x)).

(** ** The steps of [_poll] as functions on the dict *)

Definition drop_override (now : Z) (s : dict) : dict :=
  match s !! "manualOverrideState", s !! "manualOverrideStateExpiresAt" with
  | Some _, Some (VTime x) =>
      if now >=? x
      then delete "manualOverrideStateExpiresAt" (delete "manualOverrideState" s)
      else s
  | _, _ => s
  end.

Definition drop_keep (now : Z) (s : dict) : dict :=
  match s !! "keepStateUntil" with
  | Some (VTime k) => if now >=? k then delete "keepStateUntil" s else s
  | _ => s
  end.

Definition pinned (s : dict) : bool :=
  match s !! "keepStateUntil" with Some _ => true | None => false end.

Definition cross (battery : Q) (s : dict) : dict :=
  match s !! "defaultState" with
  | Some d =>
      if truthy d then
        if Qle_bool _CHARGE_THRESHOLD battery
        then <["defaultState" := VBool false]> s else s
      else if Qle_bool battery _DISCHARGE_THRESHOLD
           then <["defaultState" := VBool true]> s else s
  | None => s
  end.

Definition settle (now : Z) (battery : Q) (s : dict) : dict :=
  let s1 := drop_keep now (drop_override now s) in
  if pinned s1 then s1 else cross battery s1.

Definition wanted (s : dict) : option value :=
  match s !! "manualOverrideState" with
  | Some v => Some v
  | None => s !! "defaultState"
  end.


(** Nothing is expired on [t] and no threshold is crossed. *)
Definition settled (now : Z) (battery : Q) (t : dict) : Prop :=
  (∀ x, is_Some (t !! "manualOverrideState") →
        t !! "manualOverrideStateExpiresAt" = Some (VTime x) → now < x) ∧
  (∀ k, t !! "keepStateUntil" = Some (VTime k) → now < k) ∧
  (t !! "keepStateUntil" = None →
   ∀ d, t !! "defaultState" = Some d →
        if truthy d then Qle_bool _CHARGE_THRESHOLD battery = false
        else Qle_bool battery _DISCHARGE_THRESHOLD = false).

(** The override and its expiry time come together. *)
Definition paired (s : dict) : Prop :=
  is_Some (s !! "manualOverrideState")
  ↔ is_Some (s !! "manualOverrideStateExpiresAt").

(** The state file, when there is one, holds a paired record. *)
Definition paired_disk (w : world) : Prop :=
  ∀ d, disk w = Some d → paired d.

Definition hoare {A} (P : world → Prop) (m : M A) (Q : A → world → Prop)
    (E : exn → world → Prop) (H : world → Prop) : Prop :=
  ∀ e w, P w →
         match m e w with
         | (Ok a, w') => Q a w'
         | (Raise x, w') => E x w'
         | (Hang, w') => H w'
         end.

(** The invariant of the override pair through [_poll]: [status] has both
    keys or neither, the file is untouched, and (when [K] is asked for) the
    two keys that are always read are there. *)
Definition poll_inv (K : Prop) (d0 : option dict) (w : world) : Prop :=
  paired (status w) ∧ disk w = d0 ∧
  (K → is_Some (status w !! "currentState") ∧
       is_Some (status w !! "defaultState")).

(** What an exception of [_poll] leaves: the file untouched, and (when [K]
    is asked for) no [KeyError]. *)
Definition poll_exc (K : Prop) (d0 : option dict) (x : exn) (w : world) : Prop :=
  disk w = d0 ∧ (K → ∀ k, x ≠ KeyError k).

(** A paired record was written to the file. *)
Definition written (w : world) : Prop :=
  ∃ d, disk w = Some d ∧ paired d.

(** The file is as it was, or a paired record was written to it. *)
Definition kept (d0 : option dict) (w : world) : Prop :=
  disk w = d0 ∨ ∃ d, disk w = Some d ∧ paired d.

(** The operations of the class, and the reconciliation on its own. *)
Inductive operation :=
  | OpPoll
  | OpEnableOverride
  | OpDisableOverride
  | OpPrepareForSleep
  | OpScan
  | OpReconcile (s : dict).

Definition run_op (o : operation) (fuel : nat) : M unit :=
  match o with
  | OpPoll => poll fuel
  | OpEnableOverride => enable_manual_override fuel
  | OpDisableOverride => disable_manual_override fuel
  | OpPrepareForSleep => prepare_for_sleep fuel
  | OpScan => scan fuel
  | OpReconcile s => _poll s
  end.

(** [_poll] is handed a paired record. *)
Definition admissible (o : operation) : Prop :=
  match o with
  | OpReconcile s => paired s
  | _ => True
  end.

(** The worlds the operations lead to from a host without a state file. *)
Inductive reachable : world → Prop :=
  | reachable_init w : disk w = None → reachable w
  | reachable_step w o fuel e :
      admissible o → reachable w → reachable (run_op o fuel e w).2.

(** [m] always returns or raises. *)
Definition nohang {A} (m : M A) : Prop := ∀ e w, (m e w).1 ≠ Hang.

(** ** The calls to the plug *)

Definition command (v : bool) : event := if v then EvTurnOn else EvTurnOff.

(** An event of [_turn_on()] or [_turn_off()]. *)
Definition driver_event (ev : event) : bool :=
  match ev with
  | EvPing | EvTurnOn | EvTurnOff => true
  | _ => false
  end.

(** An event of waiting for the lock. *)
Definition lock_event (ev : event) : bool :=
  match ev with
  | EvTryLock | EvSleep => true
  | _ => false
  end.

Definition is_write (ev : event) : bool :=
  match ev with
  | EvWrite _ => true
  | _ => false
  end.

Definition inputs (s' : dict) : list event :=
  EvSsid :: EvNow :: (if pinned s' then [] else [EvBattery]).

(** ** What a reconciliation on the home network comes to

    [s2] is the record after the expiries and the thresholds, [v] the
    desired state computed from it, [c] the [currentState] it started
    with, [ok] whether the plug can be driven. *)
Inductive poll_outcome (w : world) (s2 : dict) (v c ok : bool)
  : result unit → world → Prop :=
  | outcome_same w' :
      v = c →
      status w' = s2 → disk w' = Some s2 →
      trace w' = trace w ++ inputs s2 ++ [EvWrite s2] →
      poll_outcome w s2 v c ok (Ok tt) w'
  | outcome_switched w' evs :
      v ≠ c → ok = true →
      Forall (λ ev, ev = EvPing ∨ ev = command v) evs →
      status w' = <["currentState" := VBool v]> s2 →
      disk w' = Some (<["currentState" := VBool v]> s2) →
      trace w' = trace w ++ inputs s2 ++ EvPing :: evs
                   ++ [EvWrite (<["currentState" := VBool v]> s2)] →
      poll_outcome w s2 v c ok (Ok tt) w'
  | outcome_failed w' evs x :
      v ≠ c → ok = false →
      x = RuntimeError ∨ x = PlugError →
      Forall (λ ev, ev = EvPing ∨ ev = command v) evs →
      status w' = s2 → disk w' = disk w →
      trace w' = trace w ++ inputs s2 ++ EvPing :: evs →
      poll_outcome w s2 v c ok (Raise x) w'.

(** * The rest of the class *)

(** ** [_ssid()]: reading the network name off the command output

    [subprocess.check_output(command).decode()] is a Python [str], here the
    list of its code points. *)

Abbreviation str := (list N).

(** A literal of the source. *)
Definition lit (s : string) : str :=
  List.map N_of_ascii (list_ascii_of_string s).

(** ['\n'] and [':'] *)
Definition NL : N := 10.
Definition COLON : N := 58.

(** The characters [str.strip()] removes: those for which [str.isspace()]
    holds. *)
Definition isspace (c : N) : bool :=
  ((9 <=? c) && (c <=? 13) || (28 <=? c) && (c <=? 32) ||
   (c =? 133) || (c =? 160) || (c =? 5760) ||
   (8192 <=? c) && (c <=? 8202) ||
   (c =? 8232) || (c =? 8233) || (c =? 8239) || (c =? 8287) ||
   (c =? 12288))%N.

(** [s.lstrip(chars)], [s.rstrip(chars)] and [s.strip(chars)] for the
    characters that satisfy [f]. *)
Fixpoint lstrip_by (f : N → bool) (s : str) : str :=
  match s with
  | [] => []
  | c :: s' => if f c then lstrip_by f s' else s
  end.

Definition rstrip_by (f : N → bool) (s : str) : str :=
  rev (lstrip_by f (rev s)).

Definition strip (s : str) : str := rstrip_by isspace (lstrip_by isspace s).

(** [s.split(sep)] for a separator of one character. *)
Fixpoint split (sep : N) (s : str) : list str :=
  match s with
  | [] => [[]]
  | c :: s' =>
      if (c =? sep)%N then [] :: split sep s'
      else match split sep s' with
           | l :: ls => (c :: l) :: ls
           | [] => [[c]]
           end
  end.

(** [s.startswith(prefix)] *)
Fixpoint startswith (prefix s : str) : bool :=
  match prefix, s with
  | [], _ => true
  | p :: prefix', c :: s' => (p =? c)%N && startswith prefix' s'
  | _ :: _, [] => false
  end.

(** [s.index(c)]; [None] stands for the [ValueError] it raises. *)
Fixpoint index (c : N) (s : str) : option nat :=
  match s with
  | [] => None
  | x :: s' => if (x =? c)%N then Some O else S <$> index c s'
  end.

(** [os.name == 'nt'], [sys.platform == 'darwin'], or neither. *)
Inductive platform := Windows | Darwin | Other.

(** What [_ssid()] comes to: a name, [None], or the [ValueError] of
    [stripped_line.index(':')]. *)
Inductive ssid_result :=
  | SsidIs (name : option str)
  | SsidValueError.

(** The loop over [output.split('\n')]. *)
Fixpoint ssid_lines (lines : list str) : ssid_result :=
  match lines with
  | [] => SsidIs None
  | line :: rest =>
      let stripped_line := strip line in
      if startswith (lit "SSID") stripped_line then
        match index COLON stripped_line with
        | Some i => SsidIs (Some (drop (i + 2) stripped_line))
        | None => SsidValueError
        end
      else ssid_lines rest
  end.

(** [_ssid()] on the output of the platform's command. *)
Definition _ssid_of_output (p : platform) (output : str) : ssid_result :=
  match p with
  | Windows | Darwin => ssid_lines (split NL output)
  | Other =>
      let ssid := rstrip_by (N.eqb NL) output in
      match ssid with
      | [] => SsidIs None
      | _ :: _ => SsidIs (Some ssid)
      end
  end.

(** ** What [_poll] leaves alone *)

(** A key that is none of the five of the state record. *)
Definition foreign (k : string) : Prop :=
  k ≠ "currentState" ∧ k ≠ "defaultState" ∧ k ≠ "keepStateUntil" ∧
  k ≠ "manualOverrideState" ∧ k ≠ "manualOverrideStateExpiresAt".

(** Since the world with file [d0], lock flag [h] and trace [t0], on the
    record [s0]: the file and the lock are as they were, the foreign keys
    of [status] are those of [s0], and nothing was written. *)
Definition quiet (s0 : dict) (d0 : option dict) (h : bool) (t0 : list event)
    (w : world) : Prop :=
  disk w = d0 ∧ holding w = h ∧
  (∀ k, foreign k → status w !! k = s0 !! k) ∧
  ∃ evs, trace w = t0 ++ evs ∧ existsb is_write evs = false.

(** The same, ended by the one write of [status]. *)
Definition wrote (s0 : dict) (h : bool) (t0 : list event) (w : world) : Prop :=
  disk w = Some (status w) ∧ holding w = h ∧
  (∀ k, foreign k → status w !! k = s0 !! k) ∧
  ∃ evs, trace w = t0 ++ evs ++ [EvWrite (status w)] ∧
         existsb is_write evs = false.

(** An exception of [_poll]: nothing was written, and it is not the
    [Timeout] of the lock. *)
Definition failed (s0 : dict) (d0 : option dict) (h : bool) (t0 : list event)
    (x : exn) (w : world) : Prop :=
  quiet s0 d0 h t0 w ∧ x ≠ Timeout.

(** ** Running the monad *)

Lemma bind_ok {A B} (m : M A) (f : A → M B) e w a w' :
  m e w = (Ok a, w') → (m ≫= f) e w = f a e w'.
Proof. intros H. unfold mbind, M_bind. by rewrite H. Qed.

Lemma bind_raise {A B} (m : M A) (f : A → M B) e w x w' :
  m e w = (Raise x, w') → (m ≫= f) e w = (Raise x, w').
Proof. intros H. unfold mbind, M_bind. by rewrite H. Qed.

Lemma set_status_same w : set_status (status w) w = w.
Proof. by destruct w. Qed.

Ltac unfold_ops :=
  unfold  _write_state, _ssid, datetime_now, sensors_battery_percent,
    fromisoformat, isoformat, bind_status, the_status, contains, getitem,
    setitem, pop, pop_default, ask, tell, raise, hang, mbind, M_bind, mret, M_ret.

Ltac red_world :=
  cbn [status disk holding trace reads set_status set_disk set_holding emit
       consume fst snd negb andb orb truthy].

Lemma bump_same s r : bump s r s = S (r s).
Proof. unfold bump. by rewrite bool_decide_eq_true_2. Qed.

Lemma bump_other s s' r : s ≠ s' → bump s r s' = r s'.
Proof. intros H. unfold bump. by rewrite bool_decide_eq_false_2. Qed.

Tactic Notation "red_world" "in" hyp(H) :=
  cbn [status disk holding trace reads set_status set_disk set_holding emit
       consume fst snd negb andb orb truthy] in H.

Ltac look :=
  rewrite ?lookup_insert_eq, ?lookup_delete_eq, ?bump_same;
  rewrite ?lookup_insert_ne, ?lookup_delete_ne, ?bump_other by done.

Ltac run :=
  repeat (progress (red_world; look;
                    repeat match goal with
                           | H : _ !! _ = _ |- _ => rewrite H
                           end)).

(** ** Each step does what its function says *)

Lemma _poll_override_expiry_run now e w :
  (status w !! "manualOverrideState" = None ∨
   ∃ x, status w !! "manualOverrideStateExpiresAt" = Some (VTime x)) →
  _poll_override_expiry now e w
  = (Ok tt, set_status (drop_override now (status w)) w).
Proof.
  unfold _poll_override_expiry, drop_override. unfold_ops.
  intros [H | [x H]].
  - run. by rewrite set_status_same.
  - destruct (status w !! "manualOverrideState") as [m|] eqn:Hm; run;
      [| by rewrite set_status_same].
    destruct (now >=? x); run; [done | by rewrite set_status_same].
Qed.

Lemma _poll_keep_expiry_run now e w :
  (status w !! "keepStateUntil" = None ∨
   ∃ k, status w !! "keepStateUntil" = Some (VTime k)) →
  _poll_keep_expiry now e w = (Ok tt, set_status (drop_keep now (status w)) w).
Proof.
  unfold _poll_keep_expiry, drop_keep. unfold_ops.
  intros [H | [k H]]; run; [by rewrite set_status_same |].
  destruct (now >=? k); run; [done | by rewrite set_status_same].
Qed.

Lemma _poll_thresholds_run e w :
  is_Some (status w !! "defaultState") →
  _poll_thresholds e w
  = if pinned (status w) then (Ok tt, w)
    else (Ok tt, set_status (cross (next_battery e w) (status w))
                   (emit [EvBattery] (consume SBattery w))).
Proof.
  intros [d Hd]. unfold _poll_thresholds, pinned, cross, next_battery. unfold_ops.
  destruct (status w !! "keepStateUntil") eqn:Hk; run; [done |].
  destruct (truthy d); destruct (Qle_bool _ _); run; done.
Qed.

Lemma _poll_desired_state_run e w v :
  wanted (status w) = Some v → _poll_desired_state e w = (Ok v, w).
Proof.
  unfold _poll_desired_state, wanted. unfold_ops.
  destruct (status w !! "manualOverrideState") eqn:Hm; run.
  - by intros [= ->].
  - by intros ->.
Qed.

Lemma _poll_switch_run v c e w :
  status w !! "currentState" = Some c →
  _poll_switch v e w
  = if py_ne v c
    then ((if truthy v then _turn_on else _turn_off);;
          setitem "currentState" v) e w
    else (Ok tt, w).
Proof.
  intros Hc. unfold _poll_switch. erewrite bind_ok; [| by unfold getitem; rewrite Hc].
  by destruct (py_ne v c).
Qed.

Lemma turn_run (v : bool) e w :
  let r := (if v then _turn_on else _turn_off) e w in
  status r.2 = status w ∧ disk r.2 = disk w ∧ holding r.2 = holding w ∧
  (∃ evs, trace r.2 = trace w ++ EvPing :: evs ∧
          Forall (λ ev, ev = EvPing ∨ ev = command v) evs) ∧
  (if driver_ok e w then r.1 = Ok tt
   else r.1 = Raise RuntimeError ∨ r.1 = Raise PlugError).
Proof.
  unfold driver_ok, plug_reachable.
  destruct v; unfold _turn_on, _turn_off, _ping_plug, smart_plug, ping_attempts;
    unfold_ops; cbv zeta;
    repeat (red_world; look;
            match goal with
            | |- context [ping_at e ?n] => destruct (ping_at e n)
            | |- context [plug_at e ?n] => destruct (plug_at e n)
            end);
    red_world; rewrite <- ?app_assoc; cbn [app];
    (do 3 (split; [reflexivity |]); split; [| auto]);
    (eexists; split; [reflexivity |]);
    repeat (apply List.Forall_cons; [first [by left | by right] |]);
    apply List.Forall_nil.
Qed.

(** ** The functions on the dict: which keys they touch *)

Lemma drop_override_other now (s : dict) k :
  k ≠ "manualOverrideState" → k ≠ "manualOverrideStateExpiresAt" →
  drop_override now s !! k = s !! k.
Proof.
  intros H1 H2. unfold drop_override.
  repeat case_match; try done. by rewrite !lookup_delete_ne.
Qed.

Lemma drop_keep_other now (s : dict) k :
  k ≠ "keepStateUntil" → drop_keep now s !! k = s !! k.
Proof.
  intros H. unfold drop_keep. repeat case_match; try done.
  by rewrite lookup_delete_ne.
Qed.

Lemma cross_other battery (s : dict) k :
  k ≠ "defaultState" → cross battery s !! k = s !! k.
Proof.
  intros H. unfold cross. repeat case_match; try done;
    by rewrite lookup_insert_ne.
Qed.

Lemma pinned_cross battery s : pinned (cross battery s) = pinned s.
Proof. unfold pinned. by rewrite cross_other. Qed.

Lemma settle_other now battery (s : dict) k :
  k ≠ "manualOverrideState" → k ≠ "manualOverrideStateExpiresAt" →
  k ≠ "keepStateUntil" → k ≠ "defaultState" →
  settle now battery s !! k = s !! k.
Proof.
  intros. unfold settle. destruct (pinned _);
    rewrite ?cross_other, drop_keep_other, drop_override_other; done.
Qed.

Lemma settle_override now battery (s : dict) k :
  k = "manualOverrideState" ∨ k = "manualOverrideStateExpiresAt" →
  settle now battery s !! k = drop_override now s !! k.
Proof.
  intros [-> | ->]; unfold settle; destruct (pinned _);
    rewrite ?cross_other, drop_keep_other; done.
Qed.

Lemma settle_keep now battery (s : dict) :
  settle now battery s !! "keepStateUntil"
  = drop_keep now s !! "keepStateUntil".
Proof.
  unfold settle. destruct (pinned _); rewrite ?cross_other by done;
    unfold drop_keep; rewrite !drop_override_other by done;
    repeat case_match; try done;
    by rewrite ?lookup_delete_eq, ?drop_override_other.
Qed.

Lemma pinned_settle now battery s :
  pinned (settle now battery s) = pinned (drop_keep now s).
Proof. unfold pinned. by rewrite settle_keep. Qed.

Lemma settle_default now battery (s : dict) :
  settle now battery s !! "defaultState"
  = if pinned (drop_keep now s) then s !! "defaultState"
    else cross battery s !! "defaultState".
Proof.
  unfold settle.
  replace (pinned (drop_keep now (drop_override now s)))
    with (pinned (drop_keep now s)).
  2:{ unfold pinned, drop_keep. rewrite !drop_override_other by done.
      repeat case_match; try done;
        rewrite ?lookup_delete_eq, ?drop_override_other in *; congruence. }
  destruct (pinned _).
  - by rewrite drop_keep_other, drop_override_other.
  - unfold cross. rewrite !drop_keep_other, !drop_override_other by done.
    repeat case_match; try done;
      by rewrite ?lookup_insert_eq, ?drop_keep_other, ?drop_override_other.
Qed.

(** The steps keep a record well formed. *)

Lemma drop_override_wf now s : well_formed s → well_formed (drop_override now s).
Proof.
  intros (Hc & Hd & Hk & Ho). unfold well_formed.
  rewrite (drop_override_other now s "currentState"),
    (drop_override_other now s "defaultState"),
    (drop_override_other now s "keepStateUntil") by done.
  split_and!; try done.
  unfold drop_override. destruct Ho as [[H1 H2] | (m & x & H1 & H2)]; rewrite H1, H2.
  - by left.
  - destruct (now >=? x).
    + left. by rewrite lookup_delete_ne, !lookup_delete_eq.
    + right. eauto.
Qed.

Lemma drop_keep_wf now s : well_formed s → well_formed (drop_keep now s).
Proof.
  intros (Hc & Hd & Hk & Ho). unfold well_formed.
  rewrite (drop_keep_other now s "currentState"),
    (drop_keep_other now s "defaultState"),
    (drop_keep_other now s "manualOverrideState"),
    (drop_keep_other now s "manualOverrideStateExpiresAt") by done.
  split_and!; try done.
  unfold drop_keep. destruct Hk as [H | [k H]]; rewrite H; [by left |].
  destruct (now >=? k); [left; by rewrite lookup_delete_eq | right; eauto].
Qed.

Lemma cross_wf battery s : well_formed s → well_formed (cross battery s).
Proof.
  intros (Hc & [d Hd] & Hk & Ho). unfold well_formed.
  rewrite (cross_other battery s "currentState"),
    (cross_other battery s "keepStateUntil"),
    (cross_other battery s "manualOverrideState"),
    (cross_other battery s "manualOverrideStateExpiresAt") by done.
  split_and!; try done.
  unfold cross. rewrite Hd.
  destruct d; cbn [truthy]; destruct (Qle_bool _ _);
    rewrite ?lookup_insert_eq; eauto.
Qed.

Lemma settle_wf now battery s : well_formed s → well_formed (settle now battery s).
Proof.
  intros H. unfold settle.
  destruct (pinned _); auto using drop_override_wf, drop_keep_wf, cross_wf.
Qed.

Lemma wanted_wf s : well_formed s → ∃ v, wanted s = Some (VBool v).
Proof.
  intros (Hc & [d Hd] & Hk & [[H1 H2] | (m & x & H1 & H2)]);
    unfold wanted; rewrite H1; eauto.
Qed.

(** ** [_poll(status)] on the home network, up to the switch *)

Lemma _poll_prefix s e w :
  well_formed s → at_home e w →
  let s2 := settle (next_now e w) (next_battery e w) s in
  ∃ w2, status w2 = s2 ∧ disk w2 = disk w ∧ holding w2 = holding w ∧
        trace w2 = trace w ++ inputs s2 ∧
        reads w2 SPing = reads w SPing ∧ reads w2 SPlug = reads w SPlug ∧
        ∀ v, wanted s2 = Some v →
             _poll s e w
             = (_poll_switch v;; d ← the_status; _write_state d) e w2.
Proof.
  intros Hwf Hh s2. pose proof Hwf as (Hc & Hd & Hk & Ho).
  unfold at_home, next_ssid in Hh.
  pose proof (drop_override_wf (next_now e w) s Hwf) as (_ & Hd1 & Hk1 & _).
  pose proof (drop_keep_wf (next_now e w) _
                (drop_override_wf (next_now e w) s Hwf))
    as (_ & [d2 Hd2] & _ & _).
  assert (Hrun : ∀ v, wanted s2 = Some v → ∀ w2,
    _poll_thresholds e
      (set_status (drop_keep (next_now e w) (drop_override (next_now e w) s))
         (emit [EvNow] (consume SClock (emit [EvSsid]
            (consume SSsid (set_status s w))))))
    = (Ok tt, w2) → status w2 = s2 →
    _poll s e w = (_poll_switch v;; d ← the_status; _write_state d) e w2).
  { intros v Hv w2 Hw2 Hs2. unfold _poll.
    erewrite bind_ok by reflexivity.
    erewrite bind_ok by reflexivity.
    red_world. rewrite Hh, bool_decide_eq_true_2 by done. cbn [negb].
    erewrite bind_ok by reflexivity.
    erewrite bind_ok.
    2:{ rewrite _poll_override_expiry_run; [reflexivity |].
        red_world. destruct Ho as [[H1 H2] | (m & x & H1 & H2)]; eauto. }
    erewrite bind_ok.
    2:{ rewrite _poll_keep_expiry_run; [reflexivity |]. red_world. exact Hk1. }
    red_world. erewrite bind_ok by exact Hw2.
    erewrite bind_ok; [reflexivity |].
    apply _poll_desired_state_run. by rewrite Hs2. }
  rewrite _poll_thresholds_run in Hrun by (red_world; eauto).
  red_world in Hrun. unfold inputs. subst s2. unfold settle in *.
  destruct (pinned (drop_keep _ _)) eqn:Hp.
  - eexists. split_and!;
      [ | | | | | | intros v Hv; eapply (Hrun v Hv); reflexivity];
      red_world; look; rewrite <- ?app_assoc, ?Hp; try done.
  - eexists. split_and!;
      [ | | | | | | intros v Hv; eapply (Hrun v Hv); reflexivity];
      red_world; look; rewrite <- ?app_assoc, ?pinned_cross, ?Hp; try done.
Qed.

Lemma _poll_home s e w c :
  well_formed s → at_home e w → s !! "currentState" = Some (VBool c) →
  let s2 := settle (next_now e w) (next_battery e w) s in
  ∃ v, wanted s2 = Some (VBool v) ∧
       poll_outcome w s2 v c (driver_ok e w) (_poll s e w).1 (_poll s e w).2.
Proof.
  intros Hwf Hh Hc s2.
  destruct (wanted_wf s2) as [v Hv]; [by apply settle_wf |].
  exists v. split; [done |].
  destruct (_poll_prefix s e w Hwf Hh)
    as (w2 & Hs & Hdk & Hho & Htr & Hpi & Hpl & Hrun).
  fold s2 in Hs, Htr, Hrun. rewrite (Hrun _ Hv). clear Hrun.
  assert (Hc2 : status w2 !! "currentState" = Some (VBool c)).
  { rewrite Hs. unfold s2. by rewrite settle_other. }
  assert (Hok : driver_ok e w2 = driver_ok e w).
  { unfold driver_ok, plug_reachable. by rewrite Hpi, Hpl. }
  unfold mbind, M_bind.
  rewrite (_poll_switch_run _ _ _ _ Hc2). unfold py_ne.
  destruct (decide (v = c)) as [-> | Hne].
  - rewrite bool_decide_eq_true_2 by done. cbn [negb].
    unfold_ops. red_world. apply outcome_same; red_world; try done.
    + by rewrite Hs.
    + by rewrite Htr, Hs, <- app_assoc.
  - rewrite bool_decide_eq_false_2 by congruence. cbn [negb truthy].
    pose proof (turn_run v e w2) as (Ts & Td & Th & (evs & Tt & Tf) & Tr).
    rewrite Hok in Tr. unfold mbind, M_bind.
    destruct ((if v then _turn_on else _turn_off) e w2) as [r1 w3].
    cbn [fst snd] in *. destruct (driver_ok e w).
    + subst r1. unfold_ops. red_world.
      apply (outcome_switched _ _ _ _ _ _ evs); red_world; try done.
      * by rewrite Ts, Hs.
      * by rewrite Ts, Hs.
      * rewrite Tt, Htr, Ts, Hs, <- !app_assoc. done.
    + destruct Tr as [-> | ->];
        (apply (outcome_failed _ _ _ _ _ _ evs); red_world; try done; eauto;
         try congruence; by rewrite Tt, Htr, <- app_assoc).
Qed.

(** What the reconciliation leaves in every key but [currentState]. *)
Lemma _poll_home_status s e w k :
  well_formed s → at_home e w → k ≠ "currentState" →
  status (_poll s e w).2 !! k
  = settle (next_now e w) (next_battery e w) s !! k.
Proof.
  intros Hwf Hh Hk. destruct Hwf as ([c Hc] & Hrest).
  destruct (_poll_home s e w c) as (v & Hv & Hout); [by split; eauto | done | done |].
  inversion Hout as [w' ? Hs | w' evs ? ? ? Hs | w' evs x ? ? ? ? Hs]; rewrite Hs;
    by rewrite ?lookup_insert_ne.
Qed.

Lemma _poll_home_disk s e w :
  well_formed s → at_home e w →
  match (_poll s e w).1 with
  | Ok _ => disk (_poll s e w).2 = Some (status (_poll s e w).2)
  | _ => disk (_poll s e w).2 = disk w
  end.
Proof.
  intros Hwf Hh. pose proof Hwf as ([c Hc] & Hrest).
  destruct (_poll_home s e w c) as (v & Hv & Hout); [done.. |].
  inversion Hout; congruence.
Qed.

Lemma Qle_bool_false (a b : Q) : Qle_bool a b = false ↔ (b < a)%Q.
Proof.
  rewrite <- not_true_iff_false, Qle_bool_iff. split.
  - apply Qnot_le_lt.
  - apply Qlt_not_le.
Qed.


(** ** Events of the driver *)

Lemma driver_events_only v evs :
  Forall (λ ev, ev = EvPing ∨ ev = command v) evs →
  existsb is_write evs = false ∧ (EvBattery ∉ evs) ∧ (command (negb v) ∉ evs).
Proof.
  induction 1 as [| ev evs Hev _ (IH1 & IH2 & IH3)].
  - split_and!; [done | apply not_elem_of_nil | apply not_elem_of_nil].
  - split_and!.
    + cbn [existsb]. rewrite IH1. by destruct Hev as [-> | ->]; destruct v.
    + apply not_elem_of_cons. split; [| done].
      by destruct Hev as [-> | ->]; destruct v.
    + apply not_elem_of_cons. split; [| done].
      by destruct Hev as [-> | ->]; destruct v.
Qed.

Lemma inputs_quiet s' :
  existsb driver_event (inputs s') = false ∧
  existsb is_write (inputs s') = false ∧
  ∀ v, command v ∉ inputs s'.
Proof.
  unfold inputs. destruct (pinned s'); split_and!; try done;
    intros v; destruct v; rewrite !elem_of_cons, ?elem_of_nil;
    intuition discriminate.
Qed.



(** The desired state, read off the record a reconciliation leaves. *)
Lemma _poll_home_desired s e w c v :
  poll_outcome w (settle (next_now e w) (next_battery e w) s) v c
    (driver_ok e w) (_poll s e w).1 (_poll s e w).2 →
  wanted (settle (next_now e w) (next_battery e w) s) = Some (VBool v) →
  _poll_desired_state e (_poll s e w).2 = (Ok (VBool v), (_poll s e w).2).
Proof.
  intros Hout Hv. apply _poll_desired_state_run.
  inversion Hout as [w' ? Hs | w' evs ? ? ? Hs | w' evs x ? ? ? ? Hs];
    rewrite Hs; try done.
  unfold wanted in *. by rewrite !lookup_insert_ne.
Qed.


Lemma driver_events_no_write v evs :
  Forall (λ ev, ev = EvPing ∨ ev = command v) evs →
  existsb is_write evs = false.
Proof. intros H. by apply driver_events_only in H as (? & _). Qed.


(** ** Records on which the expiries and the thresholds have nothing to do *)

Lemma settled_fix now battery t : settled now battery t → settle now battery t = t.
Proof.
  intros (Ho & Hk & Hd). unfold settle.
  assert (H1 : drop_override now t = t).
  { unfold drop_override.
    destruct (t !! "manualOverrideState") eqn:Hm; [| done].
    destruct (t !! "manualOverrideStateExpiresAt") as [[|x]|] eqn:Hx; try done.
    specialize (Ho x (ltac:(eauto)) eq_refl).
    replace (now >=? x) with false; [done |].
    symmetry. apply not_true_iff_false. rewrite Z.geb_le. lia. }
  assert (H2 : drop_keep now t = t).
  { unfold drop_keep. destruct (t !! "keepStateUntil") as [[|k]|] eqn:Hk'; try done.
    specialize (Hk k eq_refl).
    replace (now >=? k) with false; [done |].
    symmetry. apply not_true_iff_false. rewrite Z.geb_le. lia. }
  rewrite H1, H2. unfold pinned, cross.
  destruct (t !! "keepStateUntil"); [done |].
  destruct (t !! "defaultState") as [d|] eqn:Hd'; [| done].
  specialize (Hd eq_refl d eq_refl).
  destruct (truthy d); by rewrite Hd.
Qed.

Lemma settle_settled now battery s :
  well_formed s → settled now battery (settle now battery s).
Proof.
  intros (_ & [d Hd] & Hk & Ho). unfold settled.
  rewrite !settle_override by auto. rewrite settle_keep, settle_default.
  split_and!.
  - intros x. unfold drop_override.
    destruct Ho as [[H1 H2] | (m & y & H1 & H2)]; rewrite H1, H2.
    + rewrite H1. by intros [? ?].
    + destruct (now >=? y) eqn:Hy.
      * rewrite lookup_delete_ne, lookup_delete_eq by done. by intros [? ?].
      * rewrite H2. intros _ [= <-].
        apply not_true_iff_false in Hy. rewrite Z.geb_le in Hy. lia.
  - intros k. unfold drop_keep.
    destruct Hk as [H | [y H]]; rewrite H; [by rewrite H |].
    destruct (now >=? y) eqn:Hy.
    + by rewrite lookup_delete_eq.
    + rewrite H. intros [= <-].
      apply not_true_iff_false in Hy. rewrite Z.geb_le in Hy. lia.
  - unfold pinned. intros ->. unfold cross. rewrite Hd.
    unfold _CHARGE_THRESHOLD, _DISCHARGE_THRESHOLD. intros d'.
    destruct d; cbn [truthy].
    + destruct (Qle_bool 75 battery) eqn:Hb.
      * rewrite lookup_insert_eq. intros [= <-]. cbn [truthy].
        apply Qle_bool_false. apply Qle_bool_iff in Hb.
        eapply Qlt_le_trans; [| exact Hb]. reflexivity.
      * rewrite Hd. by intros [= <-].
    + destruct (Qle_bool battery 50) eqn:Hb.
      * rewrite lookup_insert_eq. intros [= <-]. cbn [truthy].
        apply Qle_bool_false. apply Qle_bool_iff in Hb.
        eapply Qle_lt_trans; [exact Hb |]. reflexivity.
      * rewrite Hd. by intros [= <-].
Qed.

Lemma settled_insert_current now battery t v :
  settled now battery t → settled now battery (<["currentState" := v]> t).
Proof. unfold settled. by rewrite !lookup_insert_ne. Qed.

Lemma well_formed_insert_current t v :
  well_formed t → well_formed (<["currentState" := VBool v]> t).
Proof.
  unfold well_formed. rewrite lookup_insert_eq, !lookup_insert_ne by done.
  intros (_ & ? & ? & ?). eauto.
Qed.

Lemma _poll_away (s : dict) e w :
  next_ssid e w ≠ Some _HOME_SSID →
  (_poll s e w).1 = Ok tt ∧ status (_poll s e w).2 = s ∧
  disk (_poll s e w).2 = Some s ∧
  trace (_poll s e w).2 = trace w ++ [EvSsid; EvWrite s] ∧
  ∀ src, src ≠ SSsid → reads (_poll s e w).2 src = reads w src.
Proof.
  intros H. unfold next_ssid in H. unfold _poll. unfold_ops. red_world.
  rewrite bool_decide_eq_false_2 by done. red_world.
  rewrite <- app_assoc. split_and!; try done.
  intros src Hsrc. by rewrite bump_other.
Qed.

(** A settled record whose [currentState] is already the desired state is
    written back unchanged, without a call to the plug. *)
Lemma _poll_home_quiet t e w v :
  well_formed t → at_home e w →
  settled (next_now e w) (next_battery e w) t →
  wanted t = Some (VBool v) → t !! "currentState" = Some (VBool v) →
  (_poll t e w).1 = Ok tt ∧ disk (_poll t e w).2 = Some t ∧
  trace (_poll t e w).2 = trace w ++ inputs t ++ [EvWrite t].
Proof.
  intros Hwf Hh Hset Hv Hc.
  destruct (_poll_home t e w v Hwf Hh Hc) as (v' & Hv' & Hout).
  rewrite (settled_fix _ _ _ Hset) in Hv', Hout.
  assert (v' = v) as -> by congruence.
  inversion Hout; done.
Qed.


(** ** A Hoare logic for the monad

    [hoare P m Q E H]: from a world in [P], [m] ends in [Q] when it returns,
    in [E] when it raises, in [H] when it is left waiting. *)

Lemma hoare_ret {A} (P : world → Prop) (a : A) Q E H :
  (∀ w, P w → Q a w) → hoare P (mret a) Q E H.
Proof. intros HQ e w HP. by apply HQ. Qed.

Lemma hoare_bind {A B} P (m : M A) (f : A → M B) Q1 Q2 E H :
  hoare P m Q1 E H → (∀ a, hoare (Q1 a) (f a) Q2 E H) →
  hoare P (m ≫= f) Q2 E H.
Proof.
  intros Hm Hf e w HP. specialize (Hm e w HP).
  unfold mbind, M_bind. destruct (m e w) as [[a | x |] w']; try done.
  by apply Hf.
Qed.

Lemma hoare_conseq {A} (P P' : world → Prop) (m : M A) (Q Q' : A → world → Prop)
    (E E' : exn → world → Prop) (H H' : world → Prop) :
  hoare P m Q E H →
  (∀ w, P' w → P w) → (∀ a w, Q a w → Q' a w) →
  (∀ x w, E x w → E' x w) → (∀ w, H w → H' w) →
  hoare P' m Q' E' H'.
Proof.
  intros Hm HP HQ HE HH e w Hw. specialize (Hm e w (HP w Hw)).
  destruct (m e w) as [[a | x |] w']; auto.
Qed.

Lemma hoare_pure {A} (φ : Prop) P (m : M A) Q E H :
  (∀ w, P w → φ) → (φ → hoare P m Q E H) → hoare P m Q E H.
Proof. intros Hφ Hm e w HP. by apply Hm; [eapply Hφ |]. Qed.

(** The steps of [_poll] keep [poll_inv]. *)
Section poll_invariant.
Variable K : Prop.
Variable d0 : option dict.

Local Abbreviation inv := (poll_inv K d0).
Local Abbreviation exc := (poll_exc K d0).

Ltac block :=
  intros e w (Hp & Hd & Hk); unfold paired in Hp;
  unfold_ops; red_world;
  repeat (case_match; red_world; simplify_eq; try done).

Ltac pairs :=
  repeat match goal with H : _ !! _ = _ |- _ => rewrite H end; done.

Ltac keys Hk :=
  let HK := fresh "HK" in
  intros HK; destruct (Hk HK) as [[? ?] [? ?]]; simplify_eq;
  rewrite ?lookup_insert_eq, ?lookup_insert_ne, ?lookup_delete_ne by done;
  eauto.

Lemma _poll_override_expiry_inv now :
  hoare inv (_poll_override_expiry now) (λ _, inv) exc (λ _, False).
Proof.
  unfold _poll_override_expiry, hoare, poll_inv, poll_exc, paired. block.
  - rewrite lookup_delete_ne by done. rewrite !lookup_delete_eq.
    split_and!; [pairs | done | keys Hk].
  - match goal with H : _ !! _ = None |- _ =>
      red_world in H; rewrite lookup_delete_ne in H by done; congruence end.
  - destruct Hp as [Hp _]. destruct Hp as [? [=]]. eauto.
Qed.

Lemma _poll_keep_expiry_inv now :
  hoare inv (_poll_keep_expiry now) (λ _, inv) exc (λ _, False).
Proof.
  unfold _poll_keep_expiry, hoare, poll_inv, poll_exc, paired. block.
  rewrite !lookup_delete_ne by done. split_and!; [pairs | done | keys Hk].
Qed.

Lemma _poll_thresholds_inv :
  hoare inv _poll_thresholds (λ _, inv) exc (λ _, False).
Proof.
  unfold _poll_thresholds, hoare, poll_inv, poll_exc, paired. block;
    rewrite ?lookup_insert_ne by done;
    first [ split_and!; [pairs | done | keys Hk] | split; [done | keys Hk] ].
Qed.

Lemma _poll_desired_state_inv :
  hoare inv _poll_desired_state (λ _, inv) exc (λ _, False).
Proof.
  unfold _poll_desired_state, hoare, poll_inv, poll_exc, paired. block;
    first [ split_and!; [pairs | done | keys Hk] | split; [done | keys Hk] ].
Qed.

Lemma _poll_switch_inv v :
  hoare inv (_poll_switch v) (λ _, inv) exc (λ _, False).
Proof.
  unfold _poll_switch. intros e w (Hp & Hd & Hk).
  unfold mbind, M_bind, getitem.
  destruct (status w !! "currentState") as [c|] eqn:Hc.
  2:{ split; [done |]. intros HK. destruct (Hk HK) as [[? ?] _]. congruence. }
  destruct (py_ne v c);
    [| unfold mret, M_ret, poll_inv; split_and!; [done | done | by rewrite Hc] ].
  assert (Ht : ∀ b : bool,
    match (if b then _turn_on else _turn_off) e w with
    | (Ok _, w') => status w' = status w ∧ disk w' = disk w
    | (Raise x, w') => disk w' = disk w ∧ ∀ k, x ≠ KeyError k
    | (Hang, _) => False
    end).
  { intros b. pose proof (turn_run b e w) as (Ts & Td & _ & _ & Tr).
    destruct ((if b then _turn_on else _turn_off) e w) as [r w'].
    cbn [fst snd] in *.
    destruct (driver_ok e w); [by subst r | by destruct Tr; subst r]. }
  assert (Ht' : match (if truthy v then _turn_on else _turn_off) e w with
    | (Ok _, w') => status w' = status w ∧ disk w' = disk w
    | (Raise x, w') => disk w' = disk w ∧ ∀ k, x ≠ KeyError k
    | (Hang, _) => False
    end) by (destruct (truthy v); [apply (Ht true) | apply (Ht false)]).
  destruct ((if truthy v then _turn_on else _turn_off) e w) as [[[] | x |] w'];
    [| | done].
  - destruct Ht' as [Ts Td]. unfold setitem, poll_inv, paired. red_world.
    rewrite Ts, Td, lookup_insert_eq. rewrite !lookup_insert_ne by done.
    split_and!; [done | done |]. intros HK. destruct (Hk HK). split; eauto.
  - destruct Ht' as [Td Hx]. split; [congruence | auto].
Qed.

Lemma _poll_write_inv :
  hoare inv (d ← the_status; _write_state d) (λ _, written) exc (λ _, False).
Proof.
  intros e w (Hp & Hd & Hk). unfold_ops. red_world. by eexists.
Qed.

Lemma _poll_inv s :
  paired s →
  (K → is_Some (s !! "currentState") ∧ is_Some (s !! "defaultState")) →
  hoare (λ w, disk w = d0) (_poll s) (λ _, written) exc (λ _, False).
Proof.
  intros Hs HK. unfold _poll.
  eapply hoare_bind with (Q1 := λ _, inv).
  { intros e w Hd. by split_and!. }
  intros _. eapply hoare_bind with (Q1 := λ _, inv).
  { intros e w Hw. apply Hw. }
  intros id. destruct (negb _); [apply _poll_write_inv |].
  eapply hoare_bind with (Q1 := λ _, inv).
  { intros e w Hw. apply Hw. }
  intros now.
  eapply hoare_bind; [apply _poll_override_expiry_inv | intros ?].
  eapply hoare_bind; [apply _poll_keep_expiry_inv | intros ?].
  eapply hoare_bind; [apply _poll_thresholds_inv | intros ?].
  eapply hoare_bind; [apply _poll_desired_state_inv | intros v].
  eapply hoare_bind; [apply _poll_switch_inv | intros ?].
  apply _poll_write_inv.
Qed.
End poll_invariant.


(** ** Code that is never left waiting *)

Lemma nohang_ret {A} (a : A) : nohang (mret a).
Proof. by intros e w. Qed.

Lemma nohang_raise {A} x : nohang (raise x : M A).
Proof. by intros e w. Qed.

Lemma nohang_bind {A B} (m : M A) (f : A → M B) :
  nohang m → (∀ a, nohang (f a)) → nohang (m ≫= f).
Proof.
  intros Hm Hf e w. specialize (Hm e w). unfold mbind, M_bind.
  destruct (m e w) as [[a | x |] w']; try done. apply Hf.
Qed.

Lemma nohang_if {A} (b : bool) (m1 m2 : M A) :
  nohang m1 → nohang m2 → nohang (if b then m1 else m2).
Proof. by destruct b. Qed.

Lemma nohang_ask {X} s (f : env → nat → X) evs : nohang (ask s f evs).
Proof. by intros e w. Qed.

Lemma nohang_contains k : nohang (contains k).
Proof. by intros e w. Qed.

Lemma nohang_getitem k : nohang (getitem k).
Proof. intros e w. unfold getitem. by case_match. Qed.

Lemma nohang_setitem k v : nohang (setitem k v).
Proof. by intros e w. Qed.

Lemma nohang_pop k : nohang (pop k).
Proof. intros e w. unfold pop. by case_match. Qed.

Lemma nohang_fromisoformat v : nohang (fromisoformat v).
Proof. destruct v; by intros e w. Qed.

Lemma nohang_the_status : nohang the_status.
Proof. by intros e w. Qed.

Lemma nohang_bind_status d : nohang (bind_status d).
Proof. by intros e w. Qed.

Lemma nohang_write_state d : nohang (_write_state d).
Proof. by intros e w. Qed.

Lemma nohang_ping_attempts n : nohang (ping_attempts n).
Proof.
  induction n as [| n IH]; cbn [ping_attempts].
  - apply nohang_raise.
  - apply nohang_bind; [apply nohang_ask |].
    intros ok. apply nohang_if; [apply nohang_ret | exact IH].
Qed.

Lemma nohang_smart_plug ev : nohang (smart_plug ev).
Proof.
  apply nohang_bind; [apply nohang_ask |].
  intros [b |]; [apply nohang_ret | apply nohang_raise].
Qed.

Create HintDb nohang.
#[local] Hint Resolve nohang_ret nohang_raise nohang_bind nohang_if nohang_ask
  nohang_contains nohang_getitem nohang_setitem nohang_pop nohang_fromisoformat
  nohang_the_status nohang_bind_status nohang_write_state nohang_ping_attempts
  nohang_smart_plug : nohang.

Lemma nohang_turn_on : nohang _turn_on.
Proof. unfold _turn_on, _ping_plug. auto 10 with nohang. Qed.

Lemma nohang_turn_off : nohang _turn_off.
Proof. unfold _turn_off, _ping_plug. auto 10 with nohang. Qed.

#[local] Hint Resolve nohang_turn_on nohang_turn_off : nohang.

Lemma nohang_poll s : nohang (_poll s).
Proof.
  unfold _poll, _poll_override_expiry, _poll_keep_expiry, _poll_thresholds,
    _poll_desired_state, _poll_switch, _ssid, datetime_now,
    sensors_battery_percent.
  auto 30 with nohang.
Qed.

(** ** The lock *)

Lemma acquire_loop_frame timeout start fuel e w :
  let r := acquire_loop timeout start fuel e w in
  status r.2 = status w ∧ disk r.2 = disk w ∧
  (∀ src, src ≠ SLockFile → src ≠ SPerf → reads r.2 src = reads w src) ∧
  ∃ evs, trace r.2 = trace w ++ evs ∧ Forall (λ ev, lock_event ev = true) evs.
Proof.
  revert w. induction fuel as [| fuel IH]; intros w; cbn [acquire_loop].
  - unfold hang. cbn [fst snd]. split_and!; try done.
    exists []. by rewrite app_nil_r.
  - unfold_ops. red_world.
    destruct (lock_taken_at e (reads w SLockFile)); red_world.
    2:{ split_and!; try done.
        - intros src H1 H2. by rewrite bump_other.
        - by exists [EvTryLock]; split; [| repeat constructor]. }
    destruct (_ && _); red_world.
    + split_and!; try done.
      * intros src H1 H2. by rewrite !bump_other.
      * rewrite app_nil_r. by exists [EvTryLock]; split; [| repeat constructor].
    + match goal with |- context [acquire_loop _ _ _ _ ?w1] =>
        destruct (IH w1) as (Hs & Hd & Hr & evs & Ht & Hf) end.
      destruct (acquire_loop _ _ _ _ _) as [[[] | x |] w'];
        cbn [fst snd] in *; red_world in Hs; red_world in Hd; red_world in Ht;
        (split_and!; [done | done | |]);
        try (intros src H1 H2; rewrite Hr by done; red_world;
             by rewrite !bump_other);
        (exists (EvTryLock :: EvSleep :: evs); split;
         [by rewrite Ht, app_nil_r, <- !app_assoc | by repeat constructor]).
Qed.

Lemma acquire_frame lk fuel e w :
  let r := acquire lk fuel e w in
  status r.2 = status w ∧ disk r.2 = disk w ∧
  (∀ src, src ≠ SLockFile → src ≠ SPerf → reads r.2 src = reads w src) ∧
  ∃ evs, trace r.2 = trace w ++ evs ∧ Forall (λ ev, lock_event ev = true) evs.
Proof.
  unfold acquire. unfold mbind, M_bind, ask. red_world.
  match goal with |- context [acquire_loop ?t ?s ?f ?e ?w1] =>
    destruct (acquire_loop_frame t s f e w1) as (Hs & Hd & Hr & evs & Ht & Hf);
    destruct (acquire_loop t s f e w1) as [[[] | x |] w']
  end; cbn [fst snd] in *; red_world in Hs; red_world in Hd; red_world in Ht;
    (split_and!; [done | done | |]);
    try (intros src H1 H2; rewrite Hr by done; red_world; by rewrite !bump_other);
    (exists evs; split; [by rewrite Ht, app_nil_r | done]).
Qed.

(** With a negative timeout the loop never raises. *)
Lemma acquire_loop_forever timeout start fuel e w x :
  Qle_bool 0 timeout = false →
  (acquire_loop timeout start fuel e w).1 ≠ Raise x.
Proof.
  intros Hneg. revert w. induction fuel as [| fuel IH]; intros w; [done |].
  cbn [acquire_loop]. unfold_ops. red_world. rewrite Hneg. cbn [andb].
  destruct (lock_taken_at e (reads w SLockFile)); red_world; [| done].
  match goal with |- context [acquire_loop _ _ _ _ ?w1] =>
    specialize (IH w1); destruct (acquire_loop timeout start fuel e w1) as [[[] | y |] w']
  end; done.
Qed.

(** While the lock file is there, it keeps waiting. *)
Lemma acquire_loop_taken timeout start fuel e w :
  Qle_bool 0 timeout = false →
  (∀ n, lock_taken_at e n = true) →
  (acquire_loop timeout start fuel e w).1 = Hang.
Proof.
  intros Hneg Hall. revert w. induction fuel as [| fuel IH]; intros w; [done |].
  cbn [acquire_loop]. unfold_ops. red_world. rewrite Hneg, Hall. cbn [andb].
  match goal with |- context [acquire_loop _ _ _ _ ?w1] =>
    specialize (IH w1); destruct (acquire_loop timeout start fuel e w1) as [[[] | y |] w']
  end; done.
Qed.


(** [_poll(status)] starts by naming its argument: what [status] was bound
    to before does not matter. *)
Lemma _poll_rebinds s e w w' :
  set_status s w = set_status s w' → _poll s e w = _poll s e w'.
Proof. intros H. unfold _poll, mbind, M_bind, bind_status. by rewrite H. Qed.


(** ** The operations and the state file *)

Lemma _poll_keeps s d0 :
  paired s →
  hoare (λ w, disk w = d0) (_poll s)
    (λ _, written) (λ _ w, disk w = d0) (λ _, False).
Proof.
  intros Hs. eapply hoare_conseq; [apply (_poll_inv False d0 s Hs) | ..]; try done.
  by intros x w [? _].
Qed.

Lemma kept_weaken {A} d0 (m : M A) :
  hoare (λ w, disk w = d0) m (λ _, written) (λ _ w, disk w = d0) (λ _, False) →
  hoare (λ w, disk w = d0) m (λ _, kept d0) (λ _, kept d0) (kept d0).
Proof.
  intros H. eapply hoare_conseq; [exact H | ..]; unfold kept; auto.
  intros w [].
Qed.

Lemma with_lock_kept {A} lk fuel (body : M A) d0 :
  hoare (λ w, disk w = d0) body (λ _, kept d0) (λ _, kept d0) (kept d0) →
  hoare (λ w, disk w = d0) (with_lock lk fuel body)
    (λ _, kept d0) (λ _, kept d0) (kept d0).
Proof.
  intros Hb e w Hd. unfold with_lock.
  pose proof (acquire_frame lk fuel e w) as (_ & Ha & _).
  destruct (acquire lk fuel e w) as [[[] | x |] w1]; cbn [snd] in Ha;
    [| by left; congruence | by left; congruence].
  specialize (Hb e w1 (eq_trans Ha Hd)).
  destruct (body e w1) as [[a | x |] w2]; [| | done];
    (destruct Hb as [Hb | [d [Hb Hp]]]; [left | right; exists d]; done).
Qed.

Lemma read_state_paired d0 :
  (∀ d, d0 = Some d → paired d) →
  paired (match d0 with None => _default_state | Some d => d end).
Proof.
  intros H. destruct d0 as [d |]; [by apply H |].
  unfold paired, _default_state. by rewrite !lookup_insert_ne, !lookup_empty.
Qed.

Lemma ping_attempts_kept n d0 :
  hoare (λ w, disk w = d0) (ping_attempts n)
    (λ _ w, disk w = d0) (λ _, kept d0) (kept d0).
Proof.
  induction n as [| n IH]; cbn [ping_attempts].
  - intros e w Hd. by left.
  - eapply hoare_bind with (Q1 := λ _ w, disk w = d0); [by intros e w Hd |].
    intros [|]; [by apply hoare_ret | exact IH].
Qed.

Lemma run_op_kept o fuel d0 :
  admissible o → (∀ d, d0 = Some d → paired d) →
  hoare (λ w, disk w = d0) (run_op o fuel)
    (λ _, kept d0) (λ _, kept d0) (kept d0).
Proof.
  intros Ho Hd0. pose proof (read_state_paired d0 Hd0) as Hst.
  destruct o; cbn [run_op admissible] in *.
  - apply with_lock_kept, kept_weaken. intros e w Hd.
    unfold mbind, M_bind, _read_state. rewrite Hd.
    by apply (_poll_keeps _ d0 Hst).
  - apply with_lock_kept, kept_weaken. intros e w Hd.
    unfold _read_state. unfold_ops. red_world.
    apply (_poll_keeps _ d0); [| done].
    unfold paired. rewrite lookup_insert_ne, !lookup_insert_eq by done.
    split; eauto.
  - apply with_lock_kept, kept_weaken. intros e w Hd.
    unfold _read_state. unfold_ops. red_world.
    apply (_poll_keeps _ d0); [| done].
    unfold paired. rewrite lookup_delete_ne, !lookup_delete_eq by done.
    split; by intros [? ?].
  - eapply hoare_bind with (Q1 := λ _ w, disk w = d0); [by intros e w Hd |].
    intros battery. apply with_lock_kept, kept_weaken. intros e w Hd.
    unfold _read_state. unfold_ops. red_world. rewrite Hd.
    apply (_poll_keeps _ d0); [| done].
    unfold paired in *. by rewrite !lookup_insert_ne by done.
  - eapply hoare_bind; [apply ping_attempts_kept |]. intros ?.
    eapply hoare_bind with (Q1 := λ _ w, disk w = d0).
    { intros e w Hd. unfold smart_plug. unfold_ops. red_world.
      destruct (plug_at e _); red_world; [done | by left]. }
    intros is_on. apply with_lock_kept, kept_weaken. intros e w Hd.
    unfold _read_state. unfold_ops. red_world. rewrite Hd.
    apply (_poll_keeps _ d0); [| done].
    unfold paired in *. by rewrite !lookup_insert_ne by done.
  - by apply kept_weaken, _poll_keeps.
Qed.


(** Every state file the operations can produce, starting without one. *)
Lemma reachable_paired w : reachable w → paired_disk w.
Proof.
  induction 1 as [w Hw | w o fuel e Ho _ IH].
  - intros d Hd. congruence.
  - pose proof (run_op_kept o fuel (disk w) Ho IH e w eq_refl) as H.
    assert (Hk : kept (disk w) (run_op o fuel e w).2)
      by by destruct (run_op o fuel e w) as [[[] | x |] w'].
    intros d Hd. destruct Hk as [Hk | (d' & Hk & Hp)]; [apply IH |]; congruence.
Qed.

(** * The properties of the specification *)

(** C1. Hysteresis dead band.  On the home network, with a well-formed
    record and no keep-window left after the expiry step, a reading [b] of
    the battery does this to [defaultState]: from true it becomes false
    when [b >= 75]; from false it becomes true when [b <= 50]; for
    [50 < b < 75] it stays as it was.  The comparisons are exactly these:
    from true it stays true for every [b < 75], from false it stays false
    for every [b > 50].  When the reconciliation completes, the record on
    disk is the one with this [defaultState]. *)
Theorem hysteresis_dead_band (s : dict) e w d :
  well_formed s → at_home e w →
  (s !! "keepStateUntil" = None ∨
   ∃ k, s !! "keepStateUntil" = Some (VTime k) ∧ k <= next_now e w) →
  s !! "defaultState" = Some (VBool d) →
  let b := next_battery e w in
  let r := _poll s e w in
  let d' := status r.2 !! "defaultState" in
  (d = true → (75 <= b)%Q → d' = Some (VBool false)) ∧
  (d = false → (b <= 50)%Q → d' = Some (VBool true)) ∧
  ((50 < b)%Q → (b < 75)%Q → d' = Some (VBool d)) ∧
  (d = true → (b < 75)%Q → d' = Some (VBool true)) ∧
  (d = false → (50 < b)%Q → d' = Some (VBool false)) ∧
  (r.1 = Ok tt → disk r.2 = Some (status r.2)).
Proof.
  intros Hwf Hh Hk Hd b r d'.
  assert (Hd' : d' = cross b s !! "defaultState").
  { unfold d', r. rewrite _poll_home_status, settle_default by done.
    replace (pinned (drop_keep (next_now e w) s)) with false; [done |].
    unfold pinned, drop_keep. destruct Hk as [Hk | (k & Hk & Hle)]; rewrite Hk.
    - by rewrite Hk.
    - replace (next_now e w >=? k) with true by (symmetry; apply Z.geb_le; lia).
      by rewrite lookup_delete_eq. }
  assert (Hdisk : r.1 = Ok tt → disk r.2 = Some (status r.2)).
  { intros Hr. pose proof (_poll_home_disk s e w Hwf Hh) as H.
    fold r in H. by rewrite Hr in H. }
  rewrite Hd'. unfold cross. rewrite Hd. unfold _CHARGE_THRESHOLD, _DISCHARGE_THRESHOLD.
  split_and!; try done.
  - intros -> Hb. apply Qle_bool_iff in Hb. cbn [truthy]. rewrite Hb.
    by rewrite lookup_insert_eq.
  - intros -> Hb. apply Qle_bool_iff in Hb. cbn [truthy]. rewrite Hb.
    by rewrite lookup_insert_eq.
  - intros H1 H2. apply Qle_bool_false in H1, H2. destruct d; cbn [truthy].
    + by rewrite H2.
    + by rewrite H1.
  - intros -> H2. apply Qle_bool_false in H2. cbn [truthy]. by rewrite H2.
  - intros -> H1. apply Qle_bool_false in H1. cbn [truthy]. by rewrite H1.
Qed.

Lemma hysteresis_dead_band_witness :
  well_formed _default_state ∧
  at_home (env0 (Some "HomeSSID") 0 80) (world0 None) ∧
  _default_state !! "keepStateUntil" = None ∧
  _default_state !! "defaultState" = Some (VBool true) ∧
  status (_poll _default_state (env0 (Some "HomeSSID") 0 80) (world0 None)).2
    !! "defaultState" = Some (VBool false).
Proof.
  assert (Hwf : well_formed _default_state).
  { split_and!; [by exists true | by exists true | by left | by left]. }
  assert (Hh : at_home (env0 (Some "HomeSSID") 0 80) (world0 None))
    by reflexivity.
  assert (Hk : _default_state !! "keepStateUntil" = None) by reflexivity.
  assert (Hd : _default_state !! "defaultState" = Some (VBool true))
    by reflexivity.
  split_and!; try assumption.
  destruct (hysteresis_dead_band _default_state _ _ true Hwf Hh (or_introl Hk) Hd)
    as (H & _).
  apply H; [reflexivity |]. apply Qle_bool_iff. reflexivity.
Defined.

(** C2. Manual override: precedence and expiry.  On the home network, for a
    well-formed record with an override [m] that expires at [x]: while
    [now < x] both fields stay, the desired state is [m] whatever the
    battery and [defaultState] are, the plug is never switched the other
    way, and a completed reconciliation leaves [currentState = m]; once
    [now >= x] both fields are gone after this very reconciliation and the
    desired state is the [defaultState] it leaves. *)
Theorem manual_override_precedence (s : dict) e w m x :
  well_formed s → at_home e w →
  s !! "manualOverrideState" = Some (VBool m) →
  s !! "manualOverrideStateExpiresAt" = Some (VTime x) →
  let now := next_now e w in
  let r := _poll s e w in
  (now < x →
     status r.2 !! "manualOverrideState" = Some (VBool m) ∧
     status r.2 !! "manualOverrideStateExpiresAt" = Some (VTime x) ∧
     _poll_desired_state e r.2 = (Ok (VBool m), r.2) ∧
     (r.1 = Ok tt → status r.2 !! "currentState" = Some (VBool m)) ∧
     ∃ evs, trace r.2 = trace w ++ evs ∧ (command (negb m) ∉ evs)) ∧
  (x <= now →
     status r.2 !! "manualOverrideState" = None ∧
     status r.2 !! "manualOverrideStateExpiresAt" = None ∧
     ∃ d, status r.2 !! "defaultState" = Some (VBool d) ∧
          _poll_desired_state e r.2 = (Ok (VBool d), r.2) ∧
          (r.1 = Ok tt → status r.2 !! "currentState" = Some (VBool d))).
Proof.
  intros Hwf Hh Hm Hx now r. subst now.
  pose proof Hwf as ([c Hc] & _).
  destruct (_poll_home s e w c Hwf Hh Hc) as (v & Hv & Hout).
  pose proof (_poll_home_desired s e w c v Hout Hv) as Hdes.
  fold r in Hout, Hdes.
  assert (Hcur : r.1 = Ok tt → status r.2 !! "currentState" = Some (VBool v)).
  { intros Hr. inversion Hout as [w' -> Hs | w' evs ? ? ? Hs | w' evs y ? ? ? ? Hs ? ? Hy].
    - rewrite Hs. by rewrite settle_other.
    - rewrite Hs. by rewrite lookup_insert_eq.
    - congruence. }
  assert (Htr : ∃ evs, trace r.2 = trace w ++ evs ∧ (command (negb v) ∉ evs)).
  { pose proof (inputs_quiet (settle (next_now e w) (next_battery e w) s)) as (_ & _ & Hin).
    inversion Hout as [w' ? ? ? Ht | w' evs ? ? Hf ? ? Ht | w' evs y ? ? ? Hf ? ? Ht];
      rewrite Ht; (eexists; split; [done |]).
    - rewrite elem_of_app, list_elem_of_singleton.
      intros [H' | H']; [by eapply Hin | by destruct v].
    - apply driver_events_only in Hf as (_ & _ & Hf).
      rewrite elem_of_app, elem_of_cons, elem_of_app, list_elem_of_singleton.
      intros [H' | [H' | [H' | H']]];
        [by eapply Hin | by destruct v | done | by destruct v].
    - apply driver_events_only in Hf as (_ & _ & Hf).
      rewrite elem_of_app, elem_of_cons.
      intros [H' | [H' | H']]; [by eapply Hin | by destruct v | done]. }
  assert (Hmos : ∀ k, k = "manualOverrideState" ∨ k = "manualOverrideStateExpiresAt" →
                      status r.2 !! k = drop_override (next_now e w) s !! k).
  { intros k Hk. unfold r. rewrite _poll_home_status, settle_override; [done.. |].
    by destruct Hk as [-> | ->]. }
  unfold wanted in Hv. rewrite !settle_override in Hv by auto.
  rewrite !Hmos by auto. unfold drop_override in *. rewrite Hm, Hx in *.
  split; intros Hnow.
  - replace (next_now e w >=? x) with false in *
      by (symmetry; apply not_true_iff_false; rewrite Z.geb_le; lia).
    cbv iota in Hv |- *.
    rewrite Hm in Hv. injection Hv as ->. rewrite Hm, Hx. by split_and!.
  - replace (next_now e w >=? x) with true in *
      by (symmetry; apply Z.geb_le; lia).
    cbv iota in Hv |- *.
    rewrite lookup_delete_ne, !lookup_delete_eq in Hv by done.
    rewrite lookup_delete_ne, !lookup_delete_eq by done.
    do 2 (split; [done |]). exists v. split; [| by split].
    unfold r. by rewrite _poll_home_status.
Qed.

Lemma manual_override_precedence_witness :
  well_formed state_overridden ∧
  at_home (env0 (Some "HomeSSID") 1000 20) (world0 None) ∧
  state_overridden !! "manualOverrideState" = Some (VBool true) ∧
  state_overridden !! "manualOverrideStateExpiresAt" = Some (VTime 500) ∧
  status (_poll state_overridden (env0 (Some "HomeSSID") 1000 20) (world0 None)).2
    !! "manualOverrideState" = None.
Proof.
  assert (Hwf : well_formed state_overridden).
  { split_and!; [by exists true | by exists false | by left |].
    right. by exists true, 500. }
  assert (Hh : at_home (env0 (Some "HomeSSID") 1000 20) (world0 None))
    by reflexivity.
  split_and!; [assumption | assumption | reflexivity | reflexivity |].
  destruct (manual_override_precedence state_overridden _ _ true 500 Hwf Hh
              eq_refl eq_refl) as (_ & H).
  apply H. unfold next_now. cbn. lia.
Defined.

(** C3. The keep-window gates the thresholds.  On the home network, for a
    well-formed record with [keepStateUntil = k]: while [now < k] the
    battery is not read and [defaultState] is not changed; once [now >= k]
    the key is removed and the thresholds are applied to the battery
    reading in the same reconciliation. *)
Theorem keep_window_gates_hysteresis (s : dict) e w k d :
  well_formed s → at_home e w →
  s !! "keepStateUntil" = Some (VTime k) →
  s !! "defaultState" = Some (VBool d) →
  let now := next_now e w in
  let b := next_battery e w in
  let r := _poll s e w in
  (now < k →
     status r.2 !! "keepStateUntil" = Some (VTime k) ∧
     status r.2 !! "defaultState" = Some (VBool d) ∧
     ∃ evs, trace r.2 = trace w ++ evs ∧ (EvBattery ∉ evs)) ∧
  (k <= now →
     status r.2 !! "keepStateUntil" = None ∧
     status r.2 !! "defaultState"
     = Some (VBool (if d then negb (Qle_bool _CHARGE_THRESHOLD b)
                    else Qle_bool b _DISCHARGE_THRESHOLD)) ∧
     ∃ evs, trace r.2 = trace w ++ EvSsid :: EvNow :: EvBattery :: evs).
Proof.
  intros Hwf Hh Hk Hd now b r.
  assert (Hkeep : status r.2 !! "keepStateUntil"
                  = drop_keep now s !! "keepStateUntil").
  { unfold r. by rewrite _poll_home_status, settle_keep. }
  assert (Hdef : status r.2 !! "defaultState"
                 = if pinned (drop_keep now s) then s !! "defaultState"
                   else cross b s !! "defaultState").
  { unfold r. by rewrite _poll_home_status, settle_default. }
  pose proof Hwf as ([c Hc] & _).
  destruct (_poll_home s e w c Hwf Hh Hc) as (v & Hv & Hout).
  fold now b r in Hout.
  assert (Htr : ∃ evs, trace r.2 = trace w ++ inputs (settle now b s) ++ evs ∧
                       (EvBattery ∉ evs)).
  { inversion Hout as [w' ? ? ? Ht | w' evs ? ? Hf ? ? Ht | w' evs x ? ? ? Hf ? ? Ht];
      rewrite Ht.
    - eexists. split; [done |]. by rewrite list_elem_of_singleton.
    - eexists (EvPing :: evs ++ _). split; [done |].
      apply driver_events_only in Hf as (_ & Hf & _).
      rewrite elem_of_cons, elem_of_app, list_elem_of_singleton.
      intuition discriminate.
    - eexists (EvPing :: evs). split; [done |].
      apply driver_events_only in Hf as (_ & Hf & _).
      rewrite elem_of_cons. intuition discriminate. }
  destruct Htr as (evs & Htr & Hnb). unfold inputs in Htr.
  rewrite pinned_settle in Htr.
  rewrite Hkeep, Hdef. unfold pinned, drop_keep. rewrite Hk.
  split; intros Hnow.
  - replace (now >=? k) with false
      by (symmetry; apply not_true_iff_false; rewrite Z.geb_le; lia).
    rewrite Hk. split_and!; [done.. |].
    unfold pinned, drop_keep in Htr. rewrite Hk in Htr.
    replace (now >=? k) with false in Htr
      by (symmetry; apply not_true_iff_false; rewrite Z.geb_le; lia).
    rewrite Hk in Htr. eexists. split; [exact Htr |].
    cbn [app]. rewrite !elem_of_cons. intuition discriminate.
  - replace (now >=? k) with true by (symmetry; apply Z.geb_le; lia).
    rewrite lookup_delete_eq. split_and!; [done | |].
    + unfold cross. rewrite Hd.
      destruct d; cbn [truthy negb]; destruct (Qle_bool _ _);
        by rewrite ?lookup_insert_eq.
    + unfold pinned, drop_keep in Htr. rewrite Hk in Htr.
      replace (now >=? k) with true in Htr by (symmetry; apply Z.geb_le; lia).
      rewrite lookup_delete_eq in Htr. by exists evs.
Qed.

Lemma keep_window_gates_hysteresis_witness :
  well_formed state_pinned ∧
  at_home (env0 (Some "HomeSSID") 1000 80) (world0 None) ∧
  state_pinned !! "keepStateUntil" = Some (VTime 2000) ∧
  state_pinned !! "defaultState" = Some (VBool true) ∧
  status (_poll state_pinned (env0 (Some "HomeSSID") 1000 80) (world0 None)).2
    !! "defaultState" = Some (VBool true).
Proof.
  assert (Hwf : well_formed state_pinned).
  { split_and!; [by exists true | by exists true | right; by exists 2000 | by left]. }
  assert (Hh : at_home (env0 (Some "HomeSSID") 1000 80) (world0 None))
    by reflexivity.
  split_and!; [assumption | assumption | reflexivity | reflexivity |].
  destruct (keep_window_gates_hysteresis state_pinned _ _ 2000 true Hwf Hh
              eq_refl eq_refl) as (H & _).
  apply H. unfold next_now. cbn. lia.
Defined.

(** C4. The plug is driven if and only if the desired state [v] differs
    from [currentState]; when the call succeeds [currentState] becomes [v]
    and the record is written; when it raises, [currentState] is as it was,
    the file is untouched and nothing was written. *)
Theorem driver_called_iff_state_differs (s : dict) e w c :
  well_formed s → at_home e w →
  s !! "currentState" = Some (VBool c) →
  let r := _poll s e w in
  ∃ v evs,
    _poll_desired_state e r.2 = (Ok (VBool v), r.2) ∧
    trace r.2 = trace w ++ evs ∧
    (existsb driver_event evs = true ↔ v ≠ c) ∧
    (v = c →
       r.1 = Ok tt ∧ status r.2 !! "currentState" = Some (VBool c) ∧
       disk r.2 = Some (status r.2)) ∧
    (v ≠ c → driver_ok e w = true →
       r.1 = Ok tt ∧ status r.2 !! "currentState" = Some (VBool v) ∧
       disk r.2 = Some (status r.2) ∧
       last evs = Some (EvWrite (status r.2))) ∧
    (v ≠ c → driver_ok e w = false →
       (r.1 = Raise RuntimeError ∨ r.1 = Raise PlugError) ∧
       status r.2 !! "currentState" = Some (VBool c) ∧
       disk r.2 = disk w ∧ existsb is_write evs = false).
Proof.
  intros Hwf Hh Hc r.
  destruct (_poll_home s e w c Hwf Hh Hc) as (v & Hv & Hout).
  pose proof (_poll_home_desired s e w c v Hout Hv) as Hdes.
  pose proof (inputs_quiet (settle (next_now e w) (next_battery e w) s))
    as (Hin1 & Hin2 & _).
  assert (Hcs : settle (next_now e w) (next_battery e w) s !! "currentState"
                = Some (VBool c)) by by rewrite settle_other.
  fold r in Hout, Hdes. exists v.
  inversion Hout as [w' Hvc Hs Hd Ht | w' evs Hvc Hok Hf Hs Hd Ht
                     | w' evs y Hvc Hok Hy Hf Hs Hd Ht].
  - eexists. split_and!; [done | exact Ht | | | done | done].
    + rewrite existsb_app, Hin1. cbn. split; [done | congruence].
    + intros _. rewrite Hs, Hd. by split_and!.
  - eexists. split_and!; [done | exact Ht | | done | | congruence].
    + rewrite existsb_app. cbn. by rewrite orb_true_r.
    + intros _ _. rewrite Hs, Hd, lookup_insert_eq. split_and!; try done.
      by rewrite app_comm_cons, app_assoc, last_snoc.
  - eexists. split_and!; [done | exact Ht | | done | congruence |].
    + rewrite existsb_app. cbn. by rewrite orb_true_r.
    + intros _ _. rewrite Hs, Hd. split_and!; try done.
      * destruct Hy; subst; auto.
      * rewrite existsb_app, Hin2. cbn. by apply driver_events_no_write in Hf.
Qed.

Lemma driver_called_iff_state_differs_witness :
  well_formed _default_state ∧
  at_home (env0 (Some "HomeSSID") 0 80) (world0 None) ∧
  _default_state !! "currentState" = Some (VBool true) ∧
  ∃ v evs,
    trace (_poll _default_state (env0 (Some "HomeSSID") 0 80) (world0 None)).2
    = trace (world0 None) ++ evs ∧
    (existsb driver_event evs = true ↔ v ≠ true).
Proof.
  assert (Hwf : well_formed _default_state).
  { split_and!; [by exists true | by exists true | by left | by left]. }
  assert (Hh : at_home (env0 (Some "HomeSSID") 0 80) (world0 None))
    by reflexivity.
  split_and!; [assumption | assumption | reflexivity |].
  destruct (driver_called_iff_state_differs _default_state _ _ true Hwf Hh eq_refl)
    as (v & evs & _ & Ht & Hiff & _).
  exists v, evs. split; assumption.
Defined.

(** C5. The lock of [poll].  [_optimistic_lock()] builds the lock without
    a timeout, so acquiring it never raises: when another invocation holds
    the lock file at the first attempt, the acquisition sleeps and tries
    again instead of failing. *)
Theorem optimistic_lock_waits fuel e w :
  lock_taken_at e (reads w SLockFile) = true →
  let r := acquire _optimistic_lock (S fuel) e w in
  (∀ x, r.1 ≠ Raise x) ∧
  ∃ evs, trace r.2 = trace w ++ EvTryLock :: EvSleep :: evs.
Proof.
  intros Htaken r. split.
  - intros x. unfold r, acquire. unfold mbind, M_bind, ask.
    pose proof (acquire_loop_forever (lock_timeout _optimistic_lock)
                  (perf_at e (reads w SPerf)) (S fuel) e
                  (emit [] (consume SPerf w)) x eq_refl) as H.
    by destruct (acquire_loop _ _ _ _ _) as [[[] | y |] w'].
  - unfold r, acquire. unfold mbind at 1, M_bind at 1, ask at 1.
    cbn [acquire_loop]. unfold_ops. red_world.
    rewrite bump_other, Htaken by done.
    change (Qle_bool 0 (lock_timeout _optimistic_lock)) with false.
    cbn [andb]. red_world.
    match goal with |- context [acquire_loop ?t ?s ?f ?e ?w1] =>
      destruct (acquire_loop_frame t s f e w1) as (_ & _ & _ & evs & Ht & _);
      destruct (acquire_loop t s f e w1) as [[[] | y |] w']
    end; cbn [fst snd] in *; red_world in Ht; exists evs;
      by rewrite Ht, !app_nil_r, <- !app_assoc.
Qed.

Lemma optimistic_lock_waits_witness :
  lock_taken_at env_locked (reads (world0 None) SLockFile) = true ∧
  (∀ x, (acquire _optimistic_lock 5 env_locked (world0 None)).1 ≠ Raise x) ∧
  ∃ evs, trace (acquire _optimistic_lock 5 env_locked (world0 None)).2
         = trace (world0 None) ++ EvTryLock :: EvSleep :: evs.
Proof.
  split; [reflexivity |].
  apply (optimistic_lock_waits 4 env_locked (world0 None)). reflexivity.
Defined.

(** C6. Away from the home network (or on no network), [_poll] writes the
    record it was given exactly as it is and returns: the only events are
    the network query and that write, so the battery and the clock are not
    read, nothing is expired and the plug is not driven. *)
Theorem away_from_home_persists_as_is (s : dict) e w :
  next_ssid e w ≠ Some _HOME_SSID →
  let r := _poll s e w in
  r.1 = Ok tt ∧ status r.2 = s ∧ disk r.2 = Some s ∧
  trace r.2 = trace w ++ [EvSsid; EvWrite s] ∧
  ∀ src, src ≠ SSsid → reads r.2 src = reads w src.
Proof. intros H r. apply (_poll_away s e w H). Qed.

Lemma away_from_home_persists_as_is_witness :
  next_ssid (env0 None 1000 80) (world0 None) ≠ Some _HOME_SSID ∧
  disk (_poll state_overridden (env0 None 1000 80) (world0 None)).2
  = Some state_overridden.
Proof.
  assert (Ha : next_ssid (env0 None 1000 80) (world0 None) ≠ Some _HOME_SSID)
    by (cbn; discriminate).
  split; [assumption |].
  apply (away_from_home_persists_as_is state_overridden _ _ Ha).
Defined.

(** C7. Idempotence.  After a reconciliation that completed on a
    well-formed record, a second one on the record it wrote, with the same
    network name, time and battery reading, completes without a call to
    the plug and writes the same record again. *)
Theorem reconciliation_idempotent (s : dict) e w :
  well_formed s →
  let r1 := _poll s e w in
  r1.1 = Ok tt →
  next_ssid e r1.2 = next_ssid e w →
  next_now e r1.2 = next_now e w →
  next_battery e r1.2 = next_battery e w →
  ∃ s1, disk r1.2 = Some s1 ∧
        let r2 := _poll s1 e r1.2 in
        r2.1 = Ok tt ∧ disk r2.2 = Some s1 ∧
        ∃ evs, trace r2.2 = trace r1.2 ++ evs ∧
               existsb driver_event evs = false.
Proof.
  intros Hwf r1 Hok Hssid Hnow Hbat.
  destruct (decide (next_ssid e w = Some _HOME_SSID)) as [Hh | Ha].
  - pose proof Hwf as ([c Hc] & _).
    destruct (_poll_home s e w c Hwf Hh Hc) as (v & Hv & Hout). fold r1 in Hout.
    pose proof (settle_wf (next_now e w) (next_battery e w) s Hwf) as Hwf2.
    pose proof (settle_settled (next_now e w) (next_battery e w) s Hwf) as Hset.
    assert (Hq : ∀ t, disk r1.2 = Some t → well_formed t →
               settled (next_now e w) (next_battery e w) t →
               wanted t = Some (VBool v) → t !! "currentState" = Some (VBool v) →
               ∃ s1, disk r1.2 = Some s1 ∧
                 (_poll s1 e r1.2).1 = Ok tt ∧ disk (_poll s1 e r1.2).2 = Some s1 ∧
                 ∃ evs, trace (_poll s1 e r1.2).2 = trace r1.2 ++ evs ∧
                        existsb driver_event evs = false).
    { intros t Hd Hwt Hst Hwa Hct. exists t. split; [done |].
      rewrite <- Hnow, <- Hbat in Hst.
      destruct (_poll_home_quiet t e r1.2 v) as (H1 & H2 & H3); try done.
      { unfold at_home. by rewrite Hssid. }
      split_and!; [done | done |]. eexists. split; [exact H3 |].
      rewrite existsb_app. destruct (inputs_quiet t) as (-> & _). done. }
    inversion Hout as [w' Hvc Hs Hd Ht | w' evs Hvc Hdo Hf Hs Hd Ht
                       | w' evs y Hvc Hdo Hy Hf Hs Hd Ht].
    + apply (Hq _ Hd Hwf2 Hset Hv). rewrite settle_other by done. congruence.
    + apply (Hq _ Hd).
      * by apply well_formed_insert_current.
      * by apply settled_insert_current.
      * unfold wanted in *. by rewrite !lookup_insert_ne.
      * by rewrite lookup_insert_eq.
    + congruence.
  - destruct (_poll_away s e w Ha) as (_ & _ & Hd & _). fold r1 in Hd.
    exists s. split; [done |].
    destruct (_poll_away s e r1.2) as (H1 & _ & H2 & H3 & _); [by rewrite Hssid |].
    split_and!; [done | done |]. eexists. split; [exact H3 | done].
Qed.

Lemma reconciliation_idempotent_witness :
  well_formed _default_state ∧
  (_poll _default_state (env0 (Some "HomeSSID") 0 80) (world0 None)).1 = Ok tt ∧
  ∃ s1,
    disk (_poll _default_state (env0 (Some "HomeSSID") 0 80) (world0 None)).2
    = Some s1 ∧
    (_poll s1 (env0 (Some "HomeSSID") 0 80)
       (_poll _default_state (env0 (Some "HomeSSID") 0 80) (world0 None)).2).1
    = Ok tt.
Proof.
  assert (Hwf : well_formed _default_state).
  { split_and!; [by exists true | by exists true | by left | by left]. }
  assert (Hok : (_poll _default_state (env0 (Some "HomeSSID") 0 80)
                   (world0 None)).1 = Ok tt) by (vm_compute; reflexivity).
  split_and!; [assumption | assumption |].
  destruct (reconciliation_idempotent _default_state _ _ Hwf Hok
              eq_refl eq_refl eq_refl) as (s1 & Hd & H1 & _).
  exists s1. split; assumption.
Defined.

(** C8. [prepare_for_sleep].  The battery is read first, before any
    attempt on the lock.  Once the lock is held, the record read from the
    state file gets [defaultState = (battery <= 30)] and
    [keepStateUntil = now + 2 minutes], [_poll] runs on that record, and
    the lock is released. *)
Theorem prepare_for_sleep_sequence fuel e w w1 :
  let b := next_battery e w in
  let now := next_now e w in
  let st := match disk w with None => _default_state | Some d => d end in
  let s' := <["keepStateUntil" := VTime (now + _SLEEP_INTERVAL)]>
              (<["defaultState" := VBool (Qle_bool b _SLEEP_CHARGE_THRESHOLD)]> st) in
  acquire _lock fuel e (emit [EvBattery] (consume SBattery w)) = (Ok tt, w1) →
  (∃ evs, trace w1 = trace w ++ EvBattery :: evs ∧
          Forall (λ ev, lock_event ev = true) evs) ∧
  ((b <= 30)%Q → s' !! "defaultState" = Some (VBool true)) ∧
  ((30 < b)%Q → s' !! "defaultState" = Some (VBool false)) ∧
  s' !! "keepStateUntil" = Some (VTime (now + 120000000)) ∧
  prepare_for_sleep fuel e w
  = let r := _poll s' e (emit [EvNow] (consume SClock w1)) in
    (r.1, (release e r.2).2).
Proof.
  intros b now st s' Hacq.
  pose proof (acquire_frame _lock fuel e (emit [EvBattery] (consume SBattery w)))
    as (Hs & Hd & Hr & evs & Ht & Hf).
  rewrite Hacq in Hs, Hd, Hr, Ht. cbn [fst snd] in Hs, Hd, Hr, Ht.
  red_world in Hd. red_world in Ht.
  split_and!.
  - exists evs. split; [| done]. by rewrite Ht, <- app_assoc.
  - intros Hb. unfold s'. rewrite lookup_insert_ne, lookup_insert_eq by done.
    apply Qle_bool_iff in Hb. unfold _SLEEP_CHARGE_THRESHOLD. by rewrite Hb.
  - intros Hb. unfold s'. rewrite lookup_insert_ne, lookup_insert_eq by done.
    apply Qle_bool_false in Hb. unfold _SLEEP_CHARGE_THRESHOLD. by rewrite Hb.
  - unfold s'. by rewrite lookup_insert_eq.
  - unfold prepare_for_sleep. unfold mbind at 1, M_bind at 1.
    unfold sensors_battery_percent at 1, ask at 1. unfold with_lock.
    rewrite Hacq. unfold _read_state. unfold_ops. red_world. rewrite Hd.
    rewrite (Hr SClock) by done. red_world. rewrite bump_other by done.
    fold b. fold (next_now e w). fold now. fold st. fold s'.
    erewrite (_poll_rebinds s' e _ (emit [EvNow] (consume SClock w1)))
      by reflexivity.
    pose proof (nohang_poll s' e (emit [EvNow] (consume SClock w1))) as Hn.
    destruct (_poll s' e _) as [[[] | x |] w2]; cbn [fst snd] in *; done.
Qed.

Lemma prepare_for_sleep_sequence_witness :
  acquire _lock 1 (env0 (Some "HomeSSID") 0 80)
    (emit [EvBattery] (consume SBattery (world0 None)))
  = (Ok tt, world_locked) ∧
  ∃ evs, trace world_locked = trace (world0 None) ++ EvBattery :: evs ∧
         Forall (λ ev, lock_event ev = true) evs.
Proof.
  assert (Ha : acquire _lock 1 (env0 (Some "HomeSSID") 0 80)
                 (emit [EvBattery] (consume SBattery (world0 None)))
               = (Ok tt, world_locked)) by reflexivity.
  split; [assumption |].
  apply (prepare_for_sleep_sequence 1 _ _ _ Ha).
Defined.

(** C9. The override and its expiry time come in pairs.  Each of [poll],
    [enable_manual_override], [disable_manual_override],
    [prepare_for_sleep], [scan], and [_poll] itself on a paired record,
    leaves a paired record in the state file when it found one (or none)
    there, however the operation ends. *)
Theorem paired_override_invariant o fuel e w :
  admissible o → paired_disk w →
  paired_disk (run_op o fuel e w).2.
Proof.
  intros Ho Hw.
  pose proof (run_op_kept o fuel (disk w) Ho Hw e w eq_refl) as H.
  assert (Hk : kept (disk w) (run_op o fuel e w).2).
  { by destruct (run_op o fuel e w) as [[[] | x |] w']. }
  intros d Hd. destruct Hk as [Hk | (d' & Hk & Hp)].
  - apply Hw. congruence.
  - congruence.
Qed.

Lemma paired_override_invariant_witness :
  admissible OpEnableOverride ∧ paired_disk (world0 None) ∧
  paired_disk
    (run_op OpEnableOverride 1 (env0 (Some "HomeSSID") 0 80) (world0 None)).2.
Proof.
  assert (Hw : paired_disk (world0 None)) by (intros d Hd; discriminate Hd).
  split_and!; [exact I | assumption |].
  apply (paired_override_invariant OpEnableOverride 1 _ _ I Hw).
Defined.

(** C10. On a record that has [currentState] and [defaultState] and in
    which the override and its expiry time come together, [_poll] never
    raises a [KeyError]. *)
Theorem reconciliation_never_misses_a_key (s : dict) e w :
  is_Some (s !! "currentState") → is_Some (s !! "defaultState") →
  paired s →
  ∀ k, (_poll s e w).1 ≠ Raise (KeyError k).
Proof.
  intros Hc Hd Hp k Hr.
  pose proof (_poll_inv True (disk w) s Hp (λ _, conj Hc Hd) e w eq_refl) as H.
  destruct (_poll s e w) as [[[] | x |] w']; cbn [fst] in Hr; try done.
  destruct H as [_ H]. injection Hr as ->. by apply (H I k).
Qed.

Lemma reconciliation_never_misses_a_key_witness :
  is_Some (_default_state !! "currentState") ∧
  is_Some (_default_state !! "defaultState") ∧
  paired _default_state ∧
  ∀ k, (_poll _default_state (env0 (Some "HomeSSID") 0 80) (world0 None)).1
       ≠ Raise (KeyError k).
Proof.
  assert (Hc : is_Some (_default_state !! "currentState")) by by eexists.
  assert (Hd : is_Some (_default_state !! "defaultState")) by by eexists.
  assert (Hp : paired _default_state).
  { split; intros [v Hv]; vm_compute in Hv; discriminate Hv. }
  split_and!; [assumption | assumption | assumption |].
  apply (reconciliation_never_misses_a_key _default_state _ _ Hc Hd Hp).
Defined.

(** ** The scenarios of the specification *)

(** Both states true, battery at 80, at home: [defaultState] becomes false,
    the plug is turned off, and both are false on disk. *)
Example scenario_discharge :
  let r := _poll _default_state (env0 (Some "HomeSSID") 0 80) (world0 None) in
  r.1 = Ok tt ∧
  trace r.2 = [EvSsid; EvNow; EvBattery; EvPing; EvTurnOff;
               EvWrite (<["currentState" := VBool false]>
                          (<["defaultState" := VBool false]> _default_state))] ∧
  disk r.2 = Some (<["currentState" := VBool false]>
                     (<["defaultState" := VBool false]> _default_state)).
Proof. vm_compute. by split_and!. Qed.

(** An override enabled at time 0 is gone after a reconciliation two days
    later, and the plug follows [defaultState] again. *)
Example scenario_override_expired :
  let s := <["manualOverrideStateExpiresAt" := VTime _MANUAL_OVERRIDE_INTERVAL]>
             (<["manualOverrideState" := VBool true]> _default_state) in
  let r := _poll s (env0 (Some "HomeSSID") (2 * _MANUAL_OVERRIDE_INTERVAL) 60)
             (world0 None) in
  r.1 = Ok tt ∧ disk r.2 = Some _default_state ∧
  trace r.2 = [EvSsid; EvNow; EvBattery; EvWrite _default_state].
Proof. vm_compute. by split_and!. Qed.

(** [poll] while another invocation holds the lock for three attempts: it
    waits, then reconciles. *)
Example poll_waits_for_the_lock :
  let r := poll 5 env_locked (world0 None) in
  r.1 = Ok tt ∧
  trace r.2 = [EvTryLock; EvSleep; EvTryLock; EvSleep; EvTryLock; EvSleep;
               EvTryLock; EvSsid; EvWrite _default_state; EvUnlock].
Proof. vm_compute. by split. Qed.

(** [poll] while the lock is never released: still waiting, whatever the
    fuel. *)
Lemma poll_waits_forever fuel e w :
  (∀ n, lock_taken_at e n = true) → (poll fuel e w).1 = Hang.
Proof.
  intros Hall. unfold poll, with_lock, acquire. unfold mbind at 1, M_bind at 1.
  unfold ask at 1.
  pose proof (acquire_loop_taken (lock_timeout _optimistic_lock)
                (perf_at e (reads w SPerf)) fuel e
                (emit [] (consume SPerf w)) eq_refl Hall) as H.
  destruct (acquire_loop _ _ _ _ _) as [[[] | y |] w']; done.
Qed.

(** * The rest of the class: proofs *)

(** ** Stripping *)

Lemma lstrip_by_app_all f (pad s : str) :
  Forall (λ c, f c = true) pad → lstrip_by f (pad ++ s) = lstrip_by f s.
Proof.
  induction 1 as [| c pad Hc _ IH]; [done |]. cbn [app lstrip_by]. by rewrite Hc.
Qed.

Lemma lstrip_by_head f (s : str) c s' :
  s = c :: s' → f c = false → lstrip_by f s = s.
Proof. intros -> Hc. cbn. by rewrite Hc. Qed.




Lemma rstrip_by_app_all f (s pad : str) :
  Forall (λ c, f c = true) pad → rstrip_by f (s ++ pad) = rstrip_by f s.
Proof.
  intros H. unfold rstrip_by. rewrite rev_app_distr.
  rewrite lstrip_by_app_all; [done |]. by apply Forall_rev.
Qed.

Lemma rstrip_by_last f (s : str) c :
  last s = Some c → f c = false → rstrip_by f s = s.
Proof.
  intros Hl Hc. unfold rstrip_by.
  destruct (rev s) as [| x t] eqn:Hr.
  - apply (f_equal (@rev N)) in Hr. rewrite rev_involutive in Hr. by subst.
  - assert (s = rev t ++ [x]) as ->.
    { apply (f_equal (@rev N)) in Hr. by rewrite rev_involutive in Hr. }
    rewrite last_snoc in Hl. injection Hl as ->.
    cbn [lstrip_by]. rewrite Hc. done.
Qed.

(** A text between whitespace: [strip] gives the text. *)
Lemma strip_padded (pad core trail : str) a z :
  Forall (λ c, isspace c = true) pad → Forall (λ c, isspace c = true) trail →
  head core = Some a → isspace a = false →
  last core = Some z → isspace z = false →
  strip (pad ++ core ++ trail) = core.
Proof.
  intros Hp Ht Ha Hsa Hz Hsz. unfold strip.
  rewrite lstrip_by_app_all by done.
  destruct core as [| a' core']; [done |]. injection Ha as ->.
  cbn [app lstrip_by]. rewrite Hsa.
  change (a :: core' ++ trail) with ((a :: core') ++ trail).
  rewrite rstrip_by_app_all by done. by eapply rstrip_by_last.
Qed.

(** ** [_ssid()] *)




Lemma ssid_lines_none lines :
  ssid_lines lines = SsidIs None
  ↔ Forall (λ line, startswith (lit "SSID") (strip line) = false) lines.
Proof.
  induction lines as [| line rest IH]; cbn [ssid_lines]; [by split |].
  destruct (startswith _ (strip line)) eqn:Hs.
  - split; [by destruct (index _ _) | inversion 1; congruence].
  - rewrite IH. split; [by constructor | by inversion 1].
Qed.

Lemma ssid_lines_first pre line post :
  Forall (λ l, startswith (lit "SSID") (strip l) = false) pre →
  startswith (lit "SSID") (strip line) = true →
  ssid_lines (pre ++ line :: post)
  = match index COLON (strip line) with
    | Some i => SsidIs (Some (drop (i + 2) (strip line)))
    | None => SsidValueError
    end.
Proof.
  intros Hpre Hline. induction Hpre as [| l pre Hl _ IH]; cbn [app ssid_lines].
  - by rewrite Hline.
  - by rewrite Hl.
Qed.

(** X2. On Windows and macOS, [_ssid()] is [None] exactly when no line of
    the output starts, once stripped, with [SSID]. *)
Theorem ssid_none_without_ssid_line (p : platform) (output : str) :
  p ≠ Other →
  (_ssid_of_output p output = SsidIs None
   ↔ Forall (λ line, startswith (lit "SSID") (strip line) = false)
       (split NL output)).
Proof. intros Hp. destruct p; [| | done]; apply ssid_lines_none. Qed.

Lemma ssid_none_without_ssid_line_witness :
  Windows ≠ Other ∧
  _ssid_of_output Windows
    (lit "There is 1 interface on the system:" ++ [NL] ++
     lit "    State                  : disconnected" ++ [NL])
  = SsidIs None.
Proof.
  split; [discriminate |].
  apply (ssid_none_without_ssid_line Windows _ ltac:(discriminate)).
  vm_compute. repeat constructor.
Defined.

Lemma ssid_first_line (p : platform) (output : str) pre line post :
  p ≠ Other →
  split NL output = pre ++ line :: post →
  Forall (λ l, startswith (lit "SSID") (strip l) = false) pre →
  startswith (lit "SSID") (strip line) = true →
  _ssid_of_output p output
  = match index COLON (strip line) with
    | Some i => SsidIs (Some (drop (i + 2) (strip line)))
    | None => SsidValueError
    end.
Proof.
  intros Hp Hsplit Hpre Hline.
  destruct p; [| | done]; cbn [_ssid_of_output]; rewrite Hsplit;
    by apply ssid_lines_first.
Qed.

(** X3. On Windows and macOS, the first line that starts, once stripped,
    with [SSID] decides alone: the result is that line from two characters
    after its first colon on, or the [ValueError] of [index] when the line
    has no colon.  The lines after it are not looked at. *)
Theorem ssid_first_ssid_line_decides (p : platform) (output : str) pre line post :
  p ≠ Other →
  split NL output = pre ++ line :: post →
  Forall (λ l, startswith (lit "SSID") (strip l) = false) pre →
  startswith (lit "SSID") (strip line) = true →
  _ssid_of_output p output
  = match index COLON (strip line) with
    | Some i => SsidIs (Some (drop (i + 2) (strip line)))
    | None => SsidValueError
    end.
Proof. apply ssid_first_line. Qed.

Lemma ssid_first_ssid_line_decides_witness :
  Darwin ≠ Other ∧
  _ssid_of_output Darwin
    (lit "     agrCtlRSSI: -52" ++ [NL] ++ lit "   SSID" ++ [NL] ++
     lit "           SSID: HomeSSID" ++ [NL])
  = SsidValueError.
Proof.
  split; [discriminate |].
  apply (ssid_first_ssid_line_decides Darwin _
           [lit "     agrCtlRSSI: -52"] (lit "   SSID")
           [lit "           SSID: HomeSSID"; []]);
    [discriminate | reflexivity | | reflexivity].
  vm_compute. repeat constructor.
Defined.

Lemma index_app_notin c (s t : str) :
  c ∉ s → index c (s ++ t) = (λ i, length s + i)%nat <$> index c t.
Proof.
  induction s as [| x s IH]; intros Hc; cbn [app index length].
  - by destruct (index c t).
  - apply not_elem_of_cons in Hc as [Hx Hs].
    replace (x =? c)%N with false by (symmetry; apply N.eqb_neq; congruence).
    rewrite (IH Hs). by destruct (index c t).
Qed.

Lemma startswith_app (p s : str) : startswith p (p ++ s) = true.
Proof. induction p as [| c p IH]; [done |]. cbn. by rewrite N.eqb_refl, IH. Qed.

(** X4. The line the commands print: whitespace, [SSID], something without
    a colon, a colon, one more character, the name, whitespace.  When no
    line before it starts with [SSID], [_ssid()] is the name, provided the
    name does not end in whitespace.  The character after the colon is
    skipped whatever it is. *)
Theorem ssid_of_ssid_line (p : platform) (output : str)
    pre pad sp c name trail post z :
  p ≠ Other →
  split NL output
  = pre ++ (pad ++ (lit "SSID" ++ sp ++ COLON :: c :: name) ++ trail) :: post →
  Forall (λ l, startswith (lit "SSID") (strip l) = false) pre →
  Forall (λ x, isspace x = true) pad →
  Forall (λ x, isspace x = true) trail →
  COLON ∉ sp →
  last name = Some z → isspace z = false →
  _ssid_of_output p output = SsidIs (Some name).
Proof.
  intros Hp Hsplit Hpre Hpad Htrail Hsp Hz Hsz.
  assert (Hstrip : strip (pad ++ (lit "SSID" ++ sp ++ COLON :: c :: name) ++ trail)
                   = lit "SSID" ++ sp ++ COLON :: c :: name).
  { apply (strip_padded _ _ _ 83%N z); try done.
    change (COLON :: c :: name) with ([COLON; c] ++ name).
    by rewrite !last_app, Hz. }
  rewrite (ssid_first_line p output pre _ post Hp Hsplit Hpre).
  2:{ rewrite Hstrip. apply startswith_app. }
  rewrite Hstrip.
  rewrite index_app_notin.
  2:{ rewrite list_elem_of_In. vm_compute. intuition discriminate. }
  rewrite index_app_notin by done.
  cbn [index]. rewrite N.eqb_refl. cbn [fmap option_fmap option_map].
  do 2 f_equal.
  replace (lit "SSID" ++ sp ++ COLON :: c :: name)
    with ((lit "SSID" ++ sp ++ [COLON; c]) ++ name)
    by (by rewrite <- !app_assoc).
  replace (length (lit "SSID") + (length sp + 0) + 2)%nat
    with (length (lit "SSID" ++ sp ++ [COLON; c]))
    by (rewrite !length_app; cbn [length]; lia).
  apply drop_app_length.
Qed.

Lemma ssid_of_ssid_line_witness :
  Windows ≠ Other ∧
  _ssid_of_output Windows
    (lit "    Name                   : Wi-Fi" ++ [13%N; NL] ++
     lit "    SSID                   : HomeSSID" ++ [13%N; NL] ++
     lit "    BSSID                  : 00:11:22:33:44:55" ++ [13%N; NL])
  = SsidIs (Some (lit "HomeSSID")).
Proof.
  split; [discriminate |].
  apply (ssid_of_ssid_line Windows _
           [lit "    Name                   : Wi-Fi" ++ [13%N]]
           (lit "    ") (lit "                   ") 32%N (lit "HomeSSID")
           [13%N]
           [lit "    BSSID                  : 00:11:22:33:44:55" ++ [13%N]; []]
           68%N);
    [discriminate | reflexivity | | | | | reflexivity | reflexivity].
  - vm_compute. repeat constructor.
  - vm_compute. repeat constructor.
  - vm_compute. repeat constructor.
  - rewrite list_elem_of_In. vm_compute. intuition discriminate.
Defined.

(** ** What [_poll] leaves alone, for every record *)

Section poll_frame.
Variable s0 : dict.
Variable d0 : option dict.
Variable h : bool.
Variable t0 : list event.

Local Abbreviation quiet' := (quiet s0 d0 h t0).
Local Abbreviation failed' := (failed s0 d0 h t0).

Lemma quiet_emit evs w :
  quiet' w → existsb is_write evs = false → quiet' (emit evs w).
Proof.
  intros (Hd & Hh & Hk & evs0 & Ht & Hf) He. split_and!; try done.
  exists (evs0 ++ evs). cbn [trace emit]. rewrite Ht, <- app_assoc.
  split; [done |]. by rewrite existsb_app, Hf, He.
Qed.

Lemma quiet_consume src w : quiet' w → quiet' (consume src w).
Proof. by intros (Hd & Hh & Hk & Ht). Qed.

Lemma quiet_set_status d w :
  quiet' w → (∀ k, foreign k → d !! k = status w !! k) →
  quiet' (set_status d w).
Proof.
  intros (Hd & Hh & Hk & Ht) Hs. split_and!; try done.
  intros k Hf. cbn [status set_status]. by rewrite Hs, Hk.
Qed.

Lemma foreign_insert (s : dict) k0 v :
  ¬ foreign k0 → ∀ k, foreign k → <[k0 := v]> s !! k = s !! k.
Proof.
  intros Hk0 k Hk. destruct (decide (k0 = k)) as [-> | Hne]; [done |].
  by rewrite lookup_insert_ne.
Qed.

Lemma foreign_delete (s : dict) k0 :
  ¬ foreign k0 → ∀ k, foreign k → delete k0 s !! k = s !! k.
Proof.
  intros Hk0 k Hk. destruct (decide (k0 = k)) as [-> | Hne]; [done |].
  by rewrite lookup_delete_ne.
Qed.

Ltac not_foreign := unfold foreign; intros (? & ? & ? & ? & ?); done.

Lemma ask_quiet {X} src (f : env → nat → X) evs :
  existsb is_write evs = false →
  hoare quiet' (ask src f evs) (λ _, quiet') failed' (λ _, False).
Proof. intros He e w Hq. cbn. by apply quiet_emit; [apply quiet_consume |]. Qed.

Lemma contains_quiet k :
  hoare quiet' (contains k) (λ _, quiet') failed' (λ _, False).
Proof. by intros e w Hq. Qed.

Lemma getitem_quiet k :
  hoare quiet' (getitem k) (λ _, quiet') failed' (λ _, False).
Proof.
  intros e w Hq. unfold getitem.
  destruct (status w !! k); [done | split; [done | discriminate]].
Qed.

Lemma setitem_quiet k v :
  ¬ foreign k → hoare quiet' (setitem k v) (λ _, quiet') failed' (λ _, False).
Proof.
  intros Hk e w Hq. unfold setitem.
  apply quiet_set_status; [done |]. by apply foreign_insert.
Qed.

Lemma pop_quiet k :
  ¬ foreign k → hoare quiet' (pop k) (λ _, quiet') failed' (λ _, False).
Proof.
  intros Hk e w Hq. unfold pop.
  destruct (status w !! k); [| split; [done | discriminate]].
  apply quiet_set_status; [done |]. by apply foreign_delete.
Qed.

Lemma fromisoformat_quiet v :
  hoare quiet' (fromisoformat v) (λ _, quiet') failed' (λ _, False).
Proof. intros e w Hq. destruct v; [split; [done | discriminate] | done]. Qed.

Lemma ret_quiet {A} (a : A) :
  hoare quiet' (mret a) (λ _, quiet') failed' (λ _, False).
Proof. by apply hoare_ret. Qed.

Lemma if_quiet {A} (b : bool) (m1 m2 : M A) Q :
  hoare quiet' m1 Q failed' (λ _, False) →
  hoare quiet' m2 Q failed' (λ _, False) →
  hoare quiet' (if b then m1 else m2) Q failed' (λ _, False).
Proof. by destruct b. Qed.

Lemma turn_quiet (v : bool) :
  hoare quiet' (if v then _turn_on else _turn_off)
    (λ _, quiet') failed' (λ _, False).
Proof.
  intros e w (Hd & Hh & Hk & evs0 & Ht & Hf).
  pose proof (turn_run v e w) as (Ts & Td & Th & (evs & Tt & Tf) & Tr).
  assert (Hq : quiet' ((if v then _turn_on else _turn_off) e w).2).
  { split_and!; [congruence | congruence | by intros k ?; rewrite Ts; apply Hk |].
    exists (evs0 ++ EvPing :: evs). rewrite Tt, Ht, <- app_assoc.
    split; [done |]. rewrite existsb_app, Hf. cbn.
    by apply driver_events_no_write in Tf. }
  destruct ((if v then _turn_on else _turn_off) e w) as [r w'].
  cbn [fst snd] in *.
  destruct (driver_ok e w); [by subst r |].
  destruct Tr; subst r; (split; [done | discriminate]).
Qed.

Create HintDb quiet.
#[local] Hint Resolve ask_quiet contains_quiet getitem_quiet setitem_quiet
  pop_quiet fromisoformat_quiet ret_quiet if_quiet : quiet.
#[local] Hint Extern 1 (¬ foreign _) => not_foreign : quiet.
#[local] Hint Extern 1 (existsb is_write _ = false) => reflexivity : quiet.
#[local] Hint Extern 2 (hoare _ (_ ≫= _) _ _ _) =>
  eapply hoare_bind; [| intros ?] : quiet.

Lemma _poll_override_expiry_quiet now :
  hoare quiet' (_poll_override_expiry now) (λ _, quiet') failed' (λ _, False).
Proof. unfold _poll_override_expiry. auto 20 with quiet. Qed.

Lemma _poll_keep_expiry_quiet now :
  hoare quiet' (_poll_keep_expiry now) (λ _, quiet') failed' (λ _, False).
Proof. unfold _poll_keep_expiry. auto 20 with quiet. Qed.

Lemma _poll_thresholds_quiet :
  hoare quiet' _poll_thresholds (λ _, quiet') failed' (λ _, False).
Proof.
  unfold _poll_thresholds, sensors_battery_percent. auto 20 with quiet.
Qed.

Lemma _poll_desired_state_quiet :
  hoare quiet' _poll_desired_state (λ _, quiet') failed' (λ _, False).
Proof. unfold _poll_desired_state. auto 20 with quiet. Qed.

Lemma _poll_switch_quiet v :
  hoare quiet' (_poll_switch v) (λ _, quiet') failed' (λ _, False).
Proof.
  unfold _poll_switch.
  eapply hoare_bind; [apply getitem_quiet | intros c].
  apply if_quiet; [| apply ret_quiet].
  eapply hoare_bind; [apply turn_quiet | intros ?].
  apply setitem_quiet. not_foreign.
Qed.

Lemma _poll_write_quiet :
  hoare quiet' (d ← the_status; _write_state d)
    (λ _, wrote s0 h t0) failed' (λ _, False).
Proof.
  intros e w (Hd & Hh & Hk & evs & Ht & Hf). unfold_ops. red_world.
  unfold wrote. red_world.
  split_and!; try done. exists evs. by rewrite Ht, <- app_assoc.
Qed.

End poll_frame.

Lemma _poll_frame s e w :
  match _poll s e w with
  | (Ok _, w') => wrote s (holding w) (trace w) w'
  | (Raise x, w') => failed s (disk w) (holding w) (trace w) x w'
  | (Hang, _) => False
  end.
Proof.
  assert (H : hoare (λ w', disk w' = disk w ∧ holding w' = holding w ∧
                           trace w' = trace w)
                (_poll s) (λ _, wrote s (holding w) (trace w))
                (failed s (disk w) (holding w) (trace w)) (λ _, False)).
  { unfold _poll.
    eapply hoare_bind with (Q1 := λ _, quiet s (disk w) (holding w) (trace w)).
    { intros e' w' (Hd & Hh & Ht). cbn. split_and!; try done.
      exists []. by rewrite app_nil_r. }
    intros ?. eapply hoare_bind; [by apply ask_quiet | intros id].
    apply if_quiet; [apply _poll_write_quiet |].
    eapply hoare_bind; [by apply ask_quiet | intros now].
    eapply hoare_bind; [apply _poll_override_expiry_quiet | intros ?].
    eapply hoare_bind; [apply _poll_keep_expiry_quiet | intros ?].
    eapply hoare_bind; [apply _poll_thresholds_quiet | intros ?].
    eapply hoare_bind; [apply _poll_desired_state_quiet | intros v].
    eapply hoare_bind; [apply _poll_switch_quiet | intros ?].
    apply _poll_write_quiet. }
  by apply H.
Qed.

(** X5. For every record, whatever its keys and values: [_poll] always
    returns or raises; when it returns, the last thing it did was to write
    the record it leaves, and it wrote nothing before; when it raises, the
    file is as it was and nothing was written; it never raises the
    [Timeout] of the lock and it does not touch the lock. *)
Theorem poll_writes_last_or_never (s : dict) e w :
  let r := _poll s e w in
  (r.1 = Ok tt →
     disk r.2 = Some (status r.2) ∧
     ∃ evs, trace r.2 = trace w ++ evs ++ [EvWrite (status r.2)] ∧
            existsb is_write evs = false) ∧
  (∀ x, r.1 = Raise x →
     x ≠ Timeout ∧ disk r.2 = disk w ∧
     ∃ evs, trace r.2 = trace w ++ evs ∧ existsb is_write evs = false) ∧
  r.1 ≠ Hang ∧ holding r.2 = holding w.
Proof.
  intros r. pose proof (_poll_frame s e w) as H. fold r in H.
  destruct r as [[[] | x |] w']; cbn [fst snd]; [| | done].
  - destruct H as (Hd & Hh & _ & Ht). by split_and!.
  - destruct H as ((Hd & Hh & _ & Ht) & Hx).
    split_and!; try done. by intros y [= <-].
Qed.

(** X6. A key that is none of the five of the state record goes through
    [_poll] untouched, in the record it leaves and in the file when it
    writes. *)
Theorem poll_keeps_foreign_keys (s : dict) e w k :
  foreign k →
  let r := _poll s e w in
  status r.2 !! k = s !! k ∧
  (r.1 = Ok tt → ∃ d, disk r.2 = Some d ∧ d !! k = s !! k).
Proof.
  intros Hk r. pose proof (_poll_frame s e w) as H. fold r in H.
  destruct r as [[[] | x |] w']; cbn [fst snd]; [| | done].
  - destruct H as (Hd & _ & Hf & _). split; [by apply Hf |].
    intros _. exists (status w'). split; [done | by apply Hf].
  - destruct H as ((_ & _ & Hf & _) & _). split; [by apply Hf | done].
Qed.

Lemma poll_keeps_foreign_keys_witness :
  foreign "note" ∧
  status (_poll (<["note" := VTime 7]> _default_state)
            (env0 (Some "HomeSSID") 0 80) (world0 None)).2 !! "note"
  = Some (VTime 7).
Proof.
  assert (Hf : foreign "note") by (by repeat split).
  split; [assumption |].
  destruct (poll_keeps_foreign_keys (<["note" := VTime 7]> _default_state)
              (env0 (Some "HomeSSID") 0 80) (world0 None) _ Hf) as [H _].
  rewrite H. reflexivity.
Defined.

(** ** [_ping_plug], [_turn_on], [_turn_off] *)

Lemma ping_attempts_spec k e w :
  let r := ping_attempts k e w in
  let n0 := reads w SPing in
  status r.2 = status w ∧ disk r.2 = disk w ∧ holding r.2 = holding w ∧
  ∃ n, (n ≤ k)%nat ∧ trace r.2 = trace w ++ repeat EvPing n ∧
       reads r.2 SPing = (n0 + n)%nat ∧
       ((r.1 = Ok tt ∧ (1 ≤ n)%nat ∧ ping_at e (n0 + (n - 1)) = true ∧
         ∀ i, (i < n - 1)%nat → ping_at e (n0 + i) = false) ∨
        (r.1 = Raise RuntimeError ∧ n = k ∧
         ∀ i, (i < k)%nat → ping_at e (n0 + i) = false)).
Proof.
  revert w. induction k as [| k IH]; intros w; cbn [ping_attempts].
  - unfold raise. cbn [fst snd]. split_and!; try done.
    exists O. rewrite app_nil_r, Nat.add_0_r. split_and!; try done.
    right. split_and!; try done. lia.
  - unfold mbind, M_bind, ask. red_world.
    destruct (ping_at e (reads w SPing)) eqn:Hp.
    + unfold mret, M_ret. cbn [fst snd]. red_world. split_and!; try done.
      exists 1%nat. rewrite bump_same. split_and!; [lia | done | lia |].
      left. cbn. rewrite Nat.add_0_r. split_and!; try done. lia.
    + specialize (IH (emit [EvPing] (consume SPing w))).
      destruct IH as (Hs & Hd & Hh & n & Hn & Ht & Hr & Hcase).
      red_world in Hs. red_world in Hd. red_world in Hh. red_world in Ht.
      red_world in Hr. red_world in Hcase. rewrite bump_same in Hr, Hcase.
      split_and!; try done.
      exists (S n). split_and!; [lia | by rewrite Ht, <- app_assoc | lia |].
      destruct Hcase as [(H1 & H2 & H3 & H4) | (H1 & H2 & H3)]; [left | right].
      * split_and!; [done | lia | |].
        -- replace (reads w SPing + (S n - 1))%nat
             with (S (reads w SPing) + (n - 1))%nat by lia. done.
        -- intros i Hi. destruct i as [| i]; [by rewrite Nat.add_0_r |].
           replace (reads w SPing + S i)%nat with (S (reads w SPing) + i)%nat
             by lia.
           apply H4. lia.
      * split_and!; [done | lia |].
        intros i Hi. destruct i as [| i]; [by rewrite Nat.add_0_r |].
        replace (reads w SPing + S i)%nat with (S (reads w SPing) + i)%nat
          by lia.
        apply H3. lia.
Qed.

(** X7. [_ping_plug()] pings at most three times and stops at the first
    ping that gets through: it returns after [n] pings when the [n]-th is
    the first to succeed, and raises [RuntimeError] after exactly three
    when all three fail.  It does nothing else. *)
Theorem ping_plug_three_attempts e w :
  let r := _ping_plug e w in
  let n0 := reads w SPing in
  status r.2 = status w ∧ disk r.2 = disk w ∧
  ∃ n, (n ≤ 3)%nat ∧ trace r.2 = trace w ++ repeat EvPing n ∧
       ((r.1 = Ok tt ∧ (1 ≤ n)%nat ∧ ping_at e (n0 + (n - 1)) = true ∧
         ∀ i, (i < n - 1)%nat → ping_at e (n0 + i) = false) ∨
        (r.1 = Raise RuntimeError ∧ n = 3%nat ∧
         ∀ i, (i < 3)%nat → ping_at e (n0 + i) = false)).
Proof.
  intros r n0.
  destruct (ping_attempts_spec 3 e w) as (Hs & Hd & _ & n & Hn & Ht & _ & Hc).
  split_and!; [done | done |]. exists n. by split_and!.
Qed.

(** X8. [_turn_on()] and [_turn_off()] send their command to the plug only
    after a ping got through, once, as the last thing they do; when none of
    the three pings gets through no command is sent and [RuntimeError] is
    raised; when the command itself fails its exception is raised. *)
Theorem turn_pings_before_command (v : bool) e w :
  let r := (if v then _turn_on else _turn_off) e w in
  ∃ n, (1 ≤ n ≤ 3)%nat ∧
       trace r.2 = trace w ++ repeat EvPing n
                     ++ (if plug_reachable e w then [command v] else []) ∧
       r.1 = (if plug_reachable e w then
                match plug_at e (reads w SPlug) with
                | Some _ => Ok tt
                | None => Raise PlugError
                end
              else Raise RuntimeError).
Proof.
  unfold plug_reachable.
  destruct v; unfold _turn_on, _turn_off, _ping_plug, smart_plug, ping_attempts;
    unfold_ops; cbv zeta;
    repeat (red_world; look;
            match goal with
            | |- context [ping_at e ?n] => destruct (ping_at e n)
            | |- context [plug_at e ?n] => destruct (plug_at e n)
            end);
    red_world; rewrite <- ?app_assoc; cbn [app];
    first [ by exists 1%nat; split_and!; [lia | lia | |]
          | by exists 2%nat; split_and!; [lia | lia | |]
          | by exists 3%nat; split_and!; [lia | lia | |] ].
Qed.
